(** * runcmd: option-carrying contexts and the construction of commands

    A shallow embedding of [runcmd.go].  The Go program layers six optional
    settings on a [context.Context] through a pointer to an [rcCtx] struct
    whose embedded context is overwritten by every [With*] call, and
    [Create] turns such a context into an [*exec.Cmd].

    The embedding keeps what the Go code observes:
    - interface values with their dynamic type (the checked conversions
      [tmp.(io.Writer)], [tmp.(string)], ... and the verb [%T] look at it);
    - the difference between a nil slice and an empty one;
    - the heap of [rcCtx] cells, so that the in-place update made by the
      [With*] methods and the aliasing it causes are visible;
    - the heap of [exec.Cmd] structs, so that two calls of [Create] give
      two different pointers. *)

From stdpp Require Import base option list strings.

Local Open Scope string_scope.
Local Open Scope nat_scope.

(** ** Go values *)

(** Addresses of heap objects (buffers, files, [rcCtx] cells, commands). *)
Abbreviation ptr := nat (only parsing).

(** The context keys.  The program declares six private struct types; a
    key of any other package is a [foreignKey]. *)
Inductive key :=
| identEnv
| identDir
| identStdout
| identStderr
| identStdin
| identExtraFiles
| foreignKey (n : nat).

#[global] Instance key_eq_dec : EqDecision key.
Proof. solve_decision. Defined.

(** A dynamic type other than the ones named below: how [%T] prints it and
    whether its method set has [Write] and [Read]. *)
Record gotype := GoType {
  type_name : string;
  has_Write : bool;
  has_Read : bool
}.

(** An interface value ([interface{}]): the nil interface, or a value
    together with its dynamic type.  A slice is [None] when it is nil. *)
Inductive value :=
| Nil
| String_ (s : string)
| StringSlice (xs : option (list string))
| FileSlice (fs : option (list ptr))
| File (p : ptr)
| Object (T : gotype) (p : ptr).

#[global] Instance gotype_eq_dec : EqDecision gotype.
Proof. solve_decision. Defined.

#[global] Instance value_eq_dec : EqDecision value.
Proof. solve_decision. Defined.

(** [tmp == nil] on an interface value. *)
Definition is_nil (v : value) : bool :=
  match v with Nil => true | _ => false end.

(** [_, ok := tmp.(io.Writer)]: [*os.File] has [Write]. *)
Definition is_Writer (v : value) : bool :=
  match v with
  | File _ => true
  | Object T _ => has_Write T
  | _ => false
  end.

(** [_, ok := tmp.(io.Reader)]: [*os.File] has [Read]. *)
Definition is_Reader (v : value) : bool :=
  match v with
  | File _ => true
  | Object T _ => has_Read T
  | _ => false
  end.

(** The verb [%T] of package fmt. *)
Definition typeName (v : value) : string :=
  match v with
  | Nil => "<nil>"
  | String_ _ => "string"
  | StringSlice _ => "[]string"
  | FileSlice _ => "[]*os.File"
  | File _ => "*os.File"
  | Object T _ => type_name T
  end.

(** Values of the static types [io.Writer] and [io.Reader]: the nil
    interface or a value whose type has the method. *)
Record io_Writer := Writer {
  writer_value :> value;
  writer_ok : is_nil writer_value || is_Writer writer_value = true
}.

Record io_Reader := Reader {
  reader_value :> value;
  reader_ok : is_nil reader_value || is_Reader reader_value = true
}.

(** The standard streams of the process, three [*os.File]. *)
Definition os_Stdin : value := File 0.
Definition os_Stdout : value := File 1.
Definition os_Stderr : value := File 2.

(** ** Errors *)

(** [fmt.Errorf] without [%w] gives an error that only has a message; with
    [%w] it gives one that also remembers the wrapped error. *)
Inductive error :=
| errorString (s : string)
| wrapError (msg : string) (err : error).

Definition Error (e : error) : string :=
  match e with
  | errorString s => s
  | wrapError msg _ => msg
  end.

Definition Unwrap (e : error) : option error :=
  match e with
  | errorString _ => None
  | wrapError _ err => Some err
  end.

(** [fmt.Errorf(prefix + "%w", err)] *)
Definition Errorf_w (prefix : string) (err : error) : error :=
  wrapError (prefix +:+ Error err) err.

(** ** Contexts *)

(** A [context.Context]: the background context, a context derived for
    cancellation (it answers no key of this program), a [valueCtx] made by
    [context.WithValue], or a pointer to an [rcCtx]. *)
Inductive context :=
| Background
| cancelCtx (parent : context)
| valueCtx (parent : context) (k : key) (val : value)
| rcCtx (l : ptr).

(** [exec.Cmd], the fields this program reads or writes. *)
Record Cmd := mkCmd {
  Path : string;
  Args : list string;
  Env : option (list string);
  Dir : string;
  Stdin : value;
  Stdout : value;
  Stderr : value;
  ExtraFiles : option (list ptr);
  cmd_ctx : context
}.

(** The heap: the [rcCtx] structs (each holds its embedded context) and the
    [exec.Cmd] structs, both addressed by position. *)
Record heap := mkHeap {
  rcCtxs : list context;
  Cmds : list Cmd
}.

(** [ctx.Value(key)].  A [valueCtx] answers for its own key and asks its
    parent otherwise; an [rcCtx] asks its embedded context, which is read
    from the heap.  [n] bounds the number of [rcCtx] cells gone through:
    [None] is a lookup that went through more than [n] of them or met a
    pointer to no cell. *)
Fixpoint Value_upto (n : nat) (cells : list context) (ctx : context) (k : key)
  {struct n} : option value :=
  let fix go (c : context) : option value :=
    match c with
    | Background => Some Nil
    | cancelCtx parent => go parent
    | valueCtx parent k' val => if decide (k' = k) then Some val else go parent
    | rcCtx l =>
        match n with
        | O => None
        | S n' =>
            match cells !! l with
            | Some c' => Value_upto n' cells c' k
            | None => None
            end
        end
    end
  in go ctx.

(** No chain of embedded contexts is longer than the number of cells when
    every cell only points to older ones, see [wf_heap]. *)
Definition Value (h : heap) (ctx : context) (k : key) : option value :=
  Value_upto (length (rcCtxs h)) (rcCtxs h) ctx k.

(** ** The configuration context *)

(** A [Ctx] of this package is a pointer to an [rcCtx]. *)
Abbreviation Ctx := ptr (only parsing).

(** [ctx.Context = c] on the struct at [l]. *)
Definition set_Context (l : ptr) (c : context) (h : heap) : heap :=
  mkHeap (<[l := c]> (rcCtxs h)) (Cmds h).

(** [Context]: [&rcCtx{ctx}], a new struct. *)
Definition Context (ctx : context) (h : heap) : Ctx * heap :=
  (length (rcCtxs h), mkHeap (rcCtxs h ++ [ctx]) (Cmds h)).

(** The six methods: each reads the embedded context, stores in its place
    a [valueCtx] over it, and returns the receiver.  The result is [None]
    when the receiver points to no struct. *)
Definition WithExtraFiles (ctx : Ctx) (files : option (list ptr)) (h : heap)
  : option (Ctx * heap) :=
  c ← rcCtxs h !! ctx;
  Some (ctx, set_Context ctx (valueCtx c identExtraFiles (FileSlice files)) h).

Definition WithEnv (ctx : Ctx) (environ : option (list string)) (h : heap)
  : option (Ctx * heap) :=
  c ← rcCtxs h !! ctx;
  Some (ctx, set_Context ctx (valueCtx c identEnv (StringSlice environ)) h).

Definition WithDir (ctx : Ctx) (s : string) (h : heap) : option (Ctx * heap) :=
  c ← rcCtxs h !! ctx;
  Some (ctx, set_Context ctx (valueCtx c identDir (String_ s)) h).

Definition WithStdout (ctx : Ctx) (v : io_Writer) (h : heap)
  : option (Ctx * heap) :=
  c ← rcCtxs h !! ctx;
  Some (ctx, set_Context ctx (valueCtx c identStdout v) h).

Definition WithStderr (ctx : Ctx) (v : io_Writer) (h : heap)
  : option (Ctx * heap) :=
  c ← rcCtxs h !! ctx;
  Some (ctx, set_Context ctx (valueCtx c identStderr v) h).

Definition WithStdin (ctx : Ctx) (v : io_Reader) (h : heap)
  : option (Ctx * heap) :=
  c ← rcCtxs h !! ctx;
  Some (ctx, set_Context ctx (valueCtx c identStdin v) h).

(** ** The typed lookups *)

(** Each takes the current content of [*dst] and returns its new content
    with the error ([None] is the nil error). *)
Definition getWriter (h : heap) (ctx : context) (dst : value) (k : key)
  (name : string) : option (value * option error) :=
  tmp ← Value h ctx k;
  if is_nil tmp then Some (dst, None)
  else if is_Writer tmp then Some (tmp, None)
  else Some (dst, Some (errorString
         ("expected io.Writer for " +:+ name +:+ ", got " +:+ typeName tmp))).

Definition getReader (h : heap) (ctx : context) (dst : value) (k : key)
  (name : string) : option (value * option error) :=
  tmp ← Value h ctx k;
  if is_nil tmp then Some (dst, None)
  else if is_Reader tmp then Some (tmp, None)
  else Some (dst, Some (errorString
         ("expected io.Reader for " +:+ name +:+ ", got " +:+ typeName tmp))).

Definition getString (h : heap) (ctx : context) (dst : string) (k : key)
  (name : string) : option (string * option error) :=
  tmp ← Value h ctx k;
  match tmp with
  | Nil => Some (dst, None)
  | String_ v => Some (v, None)
  | _ => Some (dst, Some (errorString
           ("expected string for " +:+ name +:+ ", got " +:+ typeName tmp)))
  end.

Definition getStringSlice (h : heap) (ctx : context) (dst : option (list string))
  (k : key) (name : string) : option (option (list string) * option error) :=
  tmp ← Value h ctx k;
  match tmp with
  | Nil => Some (dst, None)
  | StringSlice v => Some (v, None)
  | _ => Some (dst, Some (errorString
           ("expected string for " +:+ name +:+ ", got " +:+ typeName tmp)))
  end.

(** ** Create and Run *)

(** [exec.CommandContext] of os/exec: a new [Cmd] with the name, the
    argument vector and the context; every other field has its zero
    value.  (The search of the name in PATH is os/exec's business.) *)
Definition CommandContext (ctx : context) (name : string) (arg : list string)
  : Cmd :=
  mkCmd name (name :: arg) None "" Nil Nil Nil None ctx.

Definition set_Stdout (v : value) (c : Cmd) : Cmd :=
  mkCmd (Path c) (Args c) (Env c) (Dir c) (Stdin c) v (Stderr c)
        (ExtraFiles c) (cmd_ctx c).
Definition set_Stderr (v : value) (c : Cmd) : Cmd :=
  mkCmd (Path c) (Args c) (Env c) (Dir c) (Stdin c) (Stdout c) v
        (ExtraFiles c) (cmd_ctx c).
Definition set_Stdin (v : value) (c : Cmd) : Cmd :=
  mkCmd (Path c) (Args c) (Env c) (Dir c) v (Stdout c) (Stderr c)
        (ExtraFiles c) (cmd_ctx c).
Definition set_Dir (s : string) (c : Cmd) : Cmd :=
  mkCmd (Path c) (Args c) (Env c) s (Stdin c) (Stdout c) (Stderr c)
        (ExtraFiles c) (cmd_ctx c).
Definition set_Env (e : option (list string)) (c : Cmd) : Cmd :=
  mkCmd (Path c) (Args c) e (Dir c) (Stdin c) (Stdout c) (Stderr c)
        (ExtraFiles c) (cmd_ctx c).

(** The struct that [Create] fills in after the five lookups. *)
Definition configure (ctx : context) (path : string) (args : list string)
  (stdin stdout stderr : value) (dir : string) (environ : option (list string))
  : Cmd :=
  let cmd := CommandContext ctx path args in
  let cmd := if is_nil stdout then cmd else set_Stdout stdout cmd in
  let cmd := if is_nil stderr then cmd else set_Stderr stderr cmd in
  let cmd := if is_nil stdin then cmd else set_Stdin stdin cmd in
  let cmd := if decide (dir = "") then cmd else set_Dir dir cmd in
  let cmd := match environ with None => cmd | Some _ => set_Env environ cmd end in
  cmd.

(** [Create] returns the pointer to the new [Cmd] or the error, and the
    heap; a failed lookup returns before anything is allocated. *)
Definition Create (ctx : context) (path : string) (args : list string)
  (h : heap) : option ((ptr + error) * heap) :=
  let stdin := os_Stdin in
  let stdout := os_Stdout in
  let stderr := os_Stderr in
  let dir := "" in
  let environ := None in
  '(stdout, err) ← getWriter h ctx stdout identStdout "Stdout";
  match err with
  | Some err => Some (inr (Errorf_w "failed to assign Stdout: " err), h)
  | None =>
  '(stderr, err) ← getWriter h ctx stderr identStderr "Stderr";
  match err with
  | Some err => Some (inr (Errorf_w "failed to assign Stderr: " err), h)
  | None =>
  '(stdin, err) ← getReader h ctx stdin identStdin "Stdin";
  match err with
  | Some err => Some (inr (Errorf_w "failed to assign Stdin: " err), h)
  | None =>
  '(dir, err) ← getString h ctx dir identDir "Dir";
  match err with
  | Some err => Some (inr (Errorf_w "failed to assign Dir: " err), h)
  | None =>
  '(environ, err) ← getStringSlice h ctx environ identEnv "Env";
  match err with
  | Some err => Some (inr (Errorf_w "failed to assign Env: " err), h)
  | None =>
      let cmd := configure ctx path args stdin stdout stderr dir environ in
      Some (inl (length (Cmds h)), mkHeap (rcCtxs h) (Cmds h ++ [cmd]))
  end end end end end.

Section Run.

(** The method [Run] of [exec.Cmd]: it starts the command, waits for it and
    returns its error; what it does to the heap is its own business. *)
Variable Cmd_Run : ptr → heap → option error * heap.

Definition Run (ctx : context) (path : string) (args : list string)
  (h : heap) : option (option error * heap) :=
  '(r, h') ← Create ctx path args h;
  match r with
  | inr err => Some (Some (Errorf_w "failed to create *exec.Cmd: " err), h')
  | inl cmd => Some (Cmd_Run cmd h')
  end.

End Run.

(** ** Chains of calls *)

(** One call of a [With*] method with its argument, as a chain
    [ctx.WithA(a).WithB(b)...] makes them. *)
Inductive option_call :=
| CallExtraFiles (files : option (list ptr))
| CallEnv (environ : option (list string))
| CallDir (s : string)
| CallStdout (v : io_Writer)
| CallStderr (v : io_Writer)
| CallStdin (v : io_Reader).

Definition call (o : option_call) (ctx : Ctx) (h : heap) : option (Ctx * heap) :=
  match o with
  | CallExtraFiles files => WithExtraFiles ctx files h
  | CallEnv environ => WithEnv ctx environ h
  | CallDir s => WithDir ctx s h
  | CallStdout v => WithStdout ctx v h
  | CallStderr v => WithStderr ctx v h
  | CallStdin v => WithStdin ctx v h
  end.

(** Each call is made on the value the one before it returned. *)
Fixpoint chain (os : list option_call) (ctx : Ctx) (h : heap)
  : option (Ctx * heap) :=
  match os with
  | [] => Some (ctx, h)
  | o :: os' => '(ctx', h') ← call o ctx h; chain os' ctx' h'
  end.

(** ** Notions used in the statements *)

(** The key a call stores under and the interface value it stores. *)
Definition call_key (o : option_call) : key :=
  match o with
  | CallExtraFiles _ => identExtraFiles
  | CallEnv _ => identEnv
  | CallDir _ => identDir
  | CallStdout _ => identStdout
  | CallStderr _ => identStderr
  | CallStdin _ => identStdin
  end.

Definition call_value (o : option_call) : value :=
  match o with
  | CallExtraFiles files => FileSlice files
  | CallEnv environ => StringSlice environ
  | CallDir s => String_ s
  | CallStdout v => v
  | CallStderr v => v
  | CallStdin v => v
  end.

(** What the latest call of a chain stored under [k], if any did. *)
Fixpoint last_set (k : key) (os : list option_call) : option value :=
  match os with
  | [] => None
  | o :: os' =>
      match last_set k os' with
      | Some v => Some v
      | None => if decide (call_key o = k) then Some (call_value o) else None
      end
  end.

(** The keys [Create] looks up, in the order it does. *)
Definition lookup_order : list key :=
  [identStdout; identStderr; identStdin; identDir; identEnv].

(** The six keys of the package. *)
Definition option_keys : list key := identExtraFiles :: lookup_order.

(** The name [Create] passes for each key and the type its lookup names in
    the message. *)
Definition option_name (k : key) : string :=
  match k with
  | identStdout => "Stdout"
  | identStderr => "Stderr"
  | identStdin => "Stdin"
  | identDir => "Dir"
  | identEnv => "Env"
  | _ => ""
  end.

Definition expected (k : key) : string :=
  match k with
  | identStdout | identStderr => "io.Writer"
  | identStdin => "io.Reader"
  | _ => "string"
  end.

(** [v] is nil or of the type that the lookup of [k] converts to. *)
Definition well_typed (k : key) (v : value) : bool :=
  match k with
  | identStdout | identStderr => is_nil v || is_Writer v
  | identStdin => is_nil v || is_Reader v
  | identDir => match v with Nil | String_ _ => true | _ => false end
  | identEnv => match v with Nil | StringSlice _ => true | _ => false end
  | _ => true
  end.

(** The lookup of [k] ends and gives such a value. *)
Definition typed_at (h : heap) (ctx : context) (k : key) : bool :=
  match Value h ctx k with
  | Some v => well_typed k v
  | None => false
  end.

Definition resolvable (h : heap) (ctx : context) : bool :=
  forallb (typed_at h ctx) lookup_order.

(** None of the six options is set. *)
Definition unset_at (h : heap) (ctx : context) (k : key) : bool :=
  bool_decide (Value h ctx k = Some Nil).

Definition option_free (h : heap) (ctx : context) : bool :=
  forallb (unset_at h ctx) option_keys.

(** A context that is not of this package and carries none of its keys. *)
Fixpoint plain (c : context) : bool :=
  match c with
  | Background => true
  | cancelCtx parent => plain parent
  | valueCtx parent (foreignKey _) _ => plain parent
  | _ => false
  end.

(** Every pointer to an [rcCtx] inside [c] is below [m]. *)
Fixpoint refs_below (m : nat) (c : context) : bool :=
  match c with
  | Background => true
  | cancelCtx parent => refs_below m parent
  | valueCtx parent _ _ => refs_below m parent
  | rcCtx l => bool_decide (l < m)
  end.

(** Every struct embeds a context that only points to older structs: the
    heaps the program can build, see [wf_heap_Context] and
    [wf_heap_call]. *)
Fixpoint wf_from (i : nat) (cells : list context) : bool :=
  match cells with
  | [] => true
  | c :: cs => refs_below i c && wf_from (S i) cs
  end.

Definition wf_heap (h : heap) : bool := wf_from 0 (rcCtxs h).

(** The context is one of this heap: its pointers point to structs. *)
Definition in_heap (h : heap) (c : context) : bool :=
  refs_below (length (rcCtxs h)) c.

(** What the fields of the command are, given what the lookups found. *)
Definition stream_or (default v : value) : value :=
  if is_nil v then default else v.

Definition dir_of (v : value) : string :=
  match v with String_ s => s | _ => "" end.

Definition env_of (v : value) : option (list string) :=
  match v with StringSlice e => e | _ => None end.

(** The same as a statement about every struct. *)
Definition cells_wf (cells : list context) : Prop :=
  ∀ l c, cells !! l = Some c → refs_below l c = true.

(** The error of the lookup of [k] that finds [v], and the error [Create]
    returns for it. *)
Definition lookup_error (k : key) (v : value) : error :=
  errorString ("expected " +:+ expected k +:+ " for " +:+ option_name k +:+
               ", got " +:+ typeName v).

Definition assign_error (k : key) (v : value) : error :=
  Errorf_w ("failed to assign " +:+ option_name k +:+ ": ") (lookup_error k v).

(** The command that [Create] makes from what the five lookups found. *)
Definition resolved (ctx : context) (path : string) (args : list string)
  (vout verr vin vdir venv : value) : Cmd :=
  mkCmd path (path :: args) (env_of venv) (dir_of vdir)
        (stream_or os_Stdin vin) (stream_or os_Stdout vout)
        (stream_or os_Stderr verr) None ctx.

(** ** Values for the examples *)

(** The pointer type [*bytes.Buffer] has both [Write] and [Read]. *)
Definition bytes_Buffer : gotype := GoType "*bytes.Buffer" true true.

Definition bufA : io_Writer := Writer (Object bytes_Buffer 10) eq_refl.
Definition bufB : io_Writer := Writer (Object bytes_Buffer 11) eq_refl.
Definition bufC : io_Reader := Reader (Object bytes_Buffer 12) eq_refl.

(** The heap after [Context(context.Background())] on the empty heap. *)
Definition heap0 : heap := (Context Background (mkHeap [] [])).2.

(** The chain of the test of the repository. *)
Definition test_calls : list option_call :=
  [CallStdout bufA; CallStderr bufB; CallStdin bufC; CallDir "/tmp/runcmd-test-1";
   CallEnv (Some ["FOO=bar"; "BAZ=quux"])].

(** A context that carries a string under the key of the standard output,
    and one that also carries a number under the key of the directory. *)
Definition go_int : gotype := GoType "int" false false.

Definition bad_stdout : context := valueCtx Background identStdout (String_ "out.log").

Definition bad_stdout_dir : context :=
  valueCtx (valueCtx Background identDir (Object go_int 7)) identStdout
           (String_ "out.log").

(** A plain context: cancellable, with a value of another package. *)
Definition plain_ctx : context :=
  cancelCtx (valueCtx Background (foreignKey 3) (String_ "request-id")).

(** A command that always exits with status 1. *)
Definition exit_1 (cmd : ptr) (h : heap) : option error * heap :=
  (Some (errorString "exit status 1"), h).


(** What a lookup through the struct at [l] finds after a chain of calls
    on it: what the latest call for the key stored, or what the lookup
    found before the chain. *)
Definition latest (h : heap) (l : Ctx) (calls : list option_call) (k : key)
  : option value :=
  match last_set k calls with
  | Some v => Some v
  | None => Value h (rcCtx l) k
  end.

(** The nil interface as an [io.Writer] and as an [io.Reader]. *)
Definition nil_Writer : io_Writer := Writer Nil eq_refl.
Definition nil_Reader : io_Reader := Reader Nil eq_refl.

(** The lookups of two contexts agree on the five keys of [Create]. *)
Definition same_options (h : heap) (c1 c2 : context) : bool :=
  forallb (λ k, bool_decide (Value h c1 k = Value h c2 k)) lookup_order.

(** ** Lookups *)

Lemma Value_upto_Background n cells k :
  Value_upto n cells Background k = Some Nil.
Proof. by destruct n. Qed.

Lemma Value_upto_cancelCtx n cells p k :
  Value_upto n cells (cancelCtx p) k = Value_upto n cells p k.
Proof. by destruct n. Qed.

Lemma Value_upto_valueCtx n cells p k' v k :
  Value_upto n cells (valueCtx p k' v) k =
  if decide (k' = k) then Some v else Value_upto n cells p k.
Proof. by destruct n. Qed.

Lemma Value_upto_rcCtx n cells l k :
  Value_upto (S n) cells (rcCtx l) k =
  match cells !! l with Some c => Value_upto n cells c k | None => None end.
Proof. reflexivity. Qed.

Lemma wf_from_lookup cells : ∀ i,
  wf_from i cells = true ↔
  ∀ l c, cells !! l = Some c → refs_below (i + l) c = true.
Proof.
  induction cells as [|c0 cs IH]; intros i; simpl.
  - split; [intros _ l c Hl; by destruct l | done].
  - rewrite andb_true_iff, IH. split.
    + intros [H0 Hs] [|l] c Hl; simpl in Hl.
      * injection Hl as <-. by rewrite Nat.add_0_r.
      * replace (i + S l) with (S i + l) by lia. by apply Hs.
    + intros H. split.
      * specialize (H 0 c0 eq_refl). by rewrite Nat.add_0_r in H.
      * intros l c Hl. replace (S i + l) with (i + S l) by lia. by apply H.
Qed.

Lemma wf_heap_cells h : wf_heap h = true ↔ cells_wf (rcCtxs h).
Proof. unfold wf_heap. by rewrite wf_from_lookup. Qed.

Lemma refs_below_mono (m m' : nat) c :
  m ≤ m' → refs_below m c = true → refs_below m' c = true.
Proof.
  intros Hm. induction c; simpl; try done.
  rewrite !bool_decide_eq_true. lia.
Qed.

(** A lookup in a context that only points below [m] ends with [m] steps
    of fuel or more, and only reads the structs below [m]. *)
Lemma Value_upto_agree (m : nat) : ∀ (n n' : nat) cells cells' c k,
  cells_wf cells → (∀ l, l < m → cells' !! l = cells !! l) →
  m ≤ length cells → refs_below m c = true → m ≤ n → m ≤ n' →
  ∃ v, Value_upto n cells c k = Some v ∧ Value_upto n' cells' c k = Some v.
Proof.
  induction m as [m IH] using lt_wf_ind.
  intros n n' cells cells' c k Hwf Hagree Hlen.
  induction c as [|p IHp|p IHp k' v|l]; simpl; intros Hc Hn Hn'.
  - exists Nil. by rewrite !Value_upto_Background.
  - rewrite !Value_upto_cancelCtx. by apply IHp.
  - rewrite !Value_upto_valueCtx. case_decide; [by eauto|]. by apply IHp.
  - apply bool_decide_eq_true in Hc.
    destruct n as [|n]; [lia|]. destruct n' as [|n']; [lia|].
    destruct (cells !! l) as [c'|] eqn:E.
    2: { apply lookup_ge_None in E. lia. }
    rewrite (Value_upto_rcCtx n cells), (Value_upto_rcCtx n' cells').
    rewrite (Hagree l Hc), E.
    apply (IH l); try lia; eauto.
    intros l' Hl'. apply Hagree. lia.
Qed.

Lemma Value_total h c k :
  wf_heap h = true → in_heap h c = true → is_Some (Value h c k).
Proof.
  intros Hwf Hc. apply wf_heap_cells in Hwf.
  destruct (Value_upto_agree (length (rcCtxs h)) (length (rcCtxs h))
    (length (rcCtxs h)) (rcCtxs h) (rcCtxs h) c k) as (v & Hv & _); try done.
Qed.

(** ** The heap under the methods *)

Lemma call_eq o l h c :
  rcCtxs h !! l = Some c →
  call o l h =
  Some (l, set_Context l (valueCtx c (call_key o) (call_value o)) h).
Proof.
  intros Hl.
  destruct o; simpl;
    unfold WithExtraFiles, WithEnv, WithDir, WithStdout, WithStderr, WithStdin;
    by rewrite Hl.
Qed.

Lemma call_None o l h : rcCtxs h !! l = None → call o l h = None.
Proof.
  intros Hl.
  destruct o; simpl;
    unfold WithExtraFiles, WithEnv, WithDir, WithStdout, WithStderr, WithStdin;
    by rewrite Hl.
Qed.

Lemma wf_heap_set_Context h l c k v :
  wf_heap h = true → rcCtxs h !! l = Some c →
  wf_heap (set_Context l (valueCtx c k v) h) = true.
Proof.
  rewrite !wf_heap_cells. intros Hwf Hl l' c' Hl'. simpl in Hl'.
  destruct (decide (l = l')) as [<-|Hne].
  - rewrite list_lookup_insert_eq in Hl' by (by eapply lookup_lt_Some).
    injection Hl' as <-. simpl. by apply Hwf.
  - rewrite list_lookup_insert_ne in Hl' by done. by apply Hwf.
Qed.

Lemma wf_heap_call o l h l' h' :
  wf_heap h = true → call o l h = Some (l', h') → wf_heap h' = true.
Proof.
  intros Hwf Hcall. destruct (rcCtxs h !! l) as [c|] eqn:Hl.
  - rewrite (call_eq _ _ _ _ Hl) in Hcall. injection Hcall as <- <-.
    by apply wf_heap_set_Context.
  - by rewrite call_None in Hcall.
Qed.

Lemma wf_heap_Context h ctx :
  wf_heap h = true → in_heap h ctx = true →
  wf_heap (Context ctx h).2 = true.
Proof.
  rewrite !wf_heap_cells. intros Hwf Hc l c Hl. simpl in Hl.
  apply lookup_app_Some in Hl as [Hl|[Hlen Hl]]; [by apply Hwf|].
  apply list_lookup_singleton_Some in Hl as [Hl <-].
  replace l with (length (rcCtxs h)) by lia. done.
Qed.

Lemma Create_rcCtxs ctx path args h r h' :
  Create ctx path args h = Some (r, h') → rcCtxs h' = rcCtxs h.
Proof.
  unfold Create. intros H.
  repeat match type of H with
  | (match ?x with _ => _ end) = _ => destruct x; simpl in H
  | (_ ≫= _) = _ => apply bind_Some in H as ([? ?] & _ & H); simpl in H
  | Some _ = Some _ => injection H as <- <-
  end; try done.
Qed.

(** The lookups through the receiver after a call: the key of the call
    gives the value of the call, every other key what it gave before. *)
Lemma Value_set_Context h l c k v k' :
  wf_heap h = true → rcCtxs h !! l = Some c →
  Value (set_Context l (valueCtx c k v) h) (rcCtx l) k' =
  if decide (k = k') then Some v else Value h (rcCtx l) k'.
Proof.
  intros Hwf Hl. unfold Value. simpl. rewrite length_insert.
  pose proof (lookup_lt_Some _ _ _ Hl) as Hlt.
  destruct (length (rcCtxs h)) as [|n] eqn:Hlen; [lia|].
  rewrite !Value_upto_rcCtx, Hl.
  rewrite list_lookup_insert_eq by lia.
  rewrite Value_upto_valueCtx. case_decide; [done|].
  apply wf_heap_cells in Hwf.
  destruct (Value_upto_agree l n n (rcCtxs h)
    (<[l:=valueCtx c k v]> (rcCtxs h)) c k') as (w & -> & ->);
    try done; try lia.
  - intros l' Hl'. apply list_lookup_insert_ne. lia.
  - by apply Hwf.
Qed.

(** The lookups in a context that does not reach the struct at [l] are
    what they were. *)
Lemma Value_set_Context_other h l c' c0 k :
  wf_heap h = true → l < length (rcCtxs h) → refs_below l c0 = true →
  Value (set_Context l c' h) c0 k = Value h c0 k.
Proof.
  intros Hwf Hlt Hc0. unfold Value. simpl. rewrite length_insert.
  apply wf_heap_cells in Hwf.
  destruct (Value_upto_agree l (length (rcCtxs h)) (length (rcCtxs h))
    (rcCtxs h) (<[l:=c']> (rcCtxs h)) c0 k) as (w & -> & ->);
    try done; try lia.
  intros l' Hl'. apply list_lookup_insert_ne. lia.
Qed.

(** The new struct of [Context] gives the lookups of the context it
    embeds. *)
Lemma Value_Context h ctx k :
  wf_heap h = true → in_heap h ctx = true →
  Value (Context ctx h).2 (rcCtx (Context ctx h).1) k = Value h ctx k.
Proof.
  intros Hwf Hc. unfold Value. simpl. rewrite length_app. simpl.
  rewrite Nat.add_1_r, Value_upto_rcCtx.
  rewrite lookup_app_r, Nat.sub_diag by lia. simpl.
  apply wf_heap_cells in Hwf.
  destruct (Value_upto_agree (length (rcCtxs h)) (length (rcCtxs h))
    (length (rcCtxs h)) (rcCtxs h) (rcCtxs h ++ [ctx]) ctx k)
    as (w & -> & ->); try done.
  intros l Hl. by apply lookup_app_l.
Qed.

(** A chain of calls on a struct of the heap: it returns the receiver, and
    a lookup through the receiver gives what the latest call for the key
    stored, or what it gave before the chain when there is none. *)
Lemma chain_Value os : ∀ l h,
  wf_heap h = true → l < length (rcCtxs h) →
  ∃ h', chain os l h = Some (l, h') ∧ wf_heap h' = true ∧
    length (rcCtxs h') = length (rcCtxs h) ∧ Cmds h' = Cmds h ∧
    ∀ k, Value h' (rcCtx l) k =
         match last_set k os with
         | Some v => Some v
         | None => Value h (rcCtx l) k
         end.
Proof.
  induction os as [|o os IH]; intros l h Hwf Hl; simpl.
  - by exists h.
  - destruct (lookup_lt_is_Some_2 _ _ Hl) as [c Hc].
    rewrite (call_eq o _ _ _ Hc). simpl.
    set (h1 := set_Context l _ h).
    destruct (IH l h1) as (h' & Hchain & Hwf' & Hlen & Hcmds & Hval).
    { by apply wf_heap_set_Context. }
    { simpl. by rewrite length_insert. }
    exists h'. split; [done|]. split; [done|].
    split; [by rewrite Hlen; unfold h1; simpl; rewrite length_insert|].
    split; [done|]. intros k. rewrite Hval.
    destruct (last_set k os); [done|].
    unfold h1. rewrite Value_set_Context by done. by case_decide.
Qed.

(** ** The typed lookups and [Create] *)

Lemma getWriter_ok h ctx dst k name v :
  Value h ctx k = Some v → is_nil v || is_Writer v = true →
  getWriter h ctx dst k name = Some (stream_or dst v, None).
Proof.
  intros Hv Ht. unfold getWriter, stream_or. rewrite Hv. simpl.
  destruct (is_nil v); [done|]. simpl in Ht. by rewrite Ht.
Qed.

Lemma getWriter_err h ctx dst k name v :
  Value h ctx k = Some v → is_nil v || is_Writer v = false →
  getWriter h ctx dst k name =
  Some (dst, Some (errorString
    ("expected io.Writer for " +:+ name +:+ ", got " +:+ typeName v))).
Proof.
  intros Hv Ht. unfold getWriter. rewrite Hv. simpl.
  apply orb_false_elim in Ht as [-> ->]. done.
Qed.

Lemma getReader_ok h ctx dst k name v :
  Value h ctx k = Some v → is_nil v || is_Reader v = true →
  getReader h ctx dst k name = Some (stream_or dst v, None).
Proof.
  intros Hv Ht. unfold getReader, stream_or. rewrite Hv. simpl.
  destruct (is_nil v); [done|]. simpl in Ht. by rewrite Ht.
Qed.

Lemma getReader_err h ctx dst k name v :
  Value h ctx k = Some v → is_nil v || is_Reader v = false →
  getReader h ctx dst k name =
  Some (dst, Some (errorString
    ("expected io.Reader for " +:+ name +:+ ", got " +:+ typeName v))).
Proof.
  intros Hv Ht. unfold getReader. rewrite Hv. simpl.
  apply orb_false_elim in Ht as [-> ->]. done.
Qed.

Lemma getString_ok h ctx k name v :
  Value h ctx k = Some v → well_typed identDir v = true →
  getString h ctx "" k name = Some (dir_of v, None).
Proof. intros Hv Ht. unfold getString. rewrite Hv. by destruct v. Qed.

Lemma getString_err h ctx dst k name v :
  Value h ctx k = Some v → well_typed identDir v = false →
  getString h ctx dst k name =
  Some (dst, Some (errorString
    ("expected string for " +:+ name +:+ ", got " +:+ typeName v))).
Proof. intros Hv Ht. unfold getString. rewrite Hv. by destruct v. Qed.

Lemma getStringSlice_ok h ctx k name v :
  Value h ctx k = Some v → well_typed identEnv v = true →
  getStringSlice h ctx None k name = Some (env_of v, None).
Proof. intros Hv Ht. unfold getStringSlice. rewrite Hv. by destruct v. Qed.

Lemma getStringSlice_err h ctx dst k name v :
  Value h ctx k = Some v → well_typed identEnv v = false →
  getStringSlice h ctx dst k name =
  Some (dst, Some (errorString
    ("expected string for " +:+ name +:+ ", got " +:+ typeName v))).
Proof. intros Hv Ht. unfold getStringSlice. rewrite Hv. by destruct v. Qed.

Lemma stream_or_not_nil d v : is_nil d = false → is_nil (stream_or d v) = false.
Proof. unfold stream_or. by destruct (is_nil v) eqn:E. Qed.

(** With streams that are not nil, the command gets every value as it is:
    the empty directory and the nil environment are the zero values. *)
Lemma configure_eq ctx path args stdin stdout stderr dir environ :
  is_nil stdin = false → is_nil stdout = false → is_nil stderr = false →
  configure ctx path args stdin stdout stderr dir environ =
  mkCmd path (path :: args) environ dir stdin stdout stderr None ctx.
Proof.
  intros H1 H2 H3. unfold configure. rewrite H1, H2, H3.
  case_decide; destruct environ; subst; reflexivity.
Qed.

Lemma typed_at_Some h ctx k :
  typed_at h ctx k = true →
  ∃ v, Value h ctx k = Some v ∧ well_typed k v = true.
Proof. unfold typed_at. destruct (Value h ctx k); [eauto|done]. Qed.

(** Membership in a list that is written out. *)
Ltac in_list := apply list_elem_of_In; simpl; tauto.

(** One step of [Create]: a lookup whose value is known to be well typed. *)
Ltac lookup_ok :=
  match goal with
  | Hv : Value ?h ?ctx ?k = Some ?v, Ht : well_typed ?k ?v = true
    |- context [getWriter ?h ?ctx _ ?k _] =>
      rewrite (getWriter_ok _ _ _ _ _ _ Hv Ht); simpl
  | Hv : Value ?h ?ctx ?k = Some ?v, Ht : well_typed ?k ?v = true
    |- context [getReader ?h ?ctx _ ?k _] =>
      rewrite (getReader_ok _ _ _ _ _ _ Hv Ht); simpl
  | Hv : Value ?h ?ctx ?k = Some ?v, Ht : well_typed ?k ?v = true
    |- context [getString ?h ?ctx _ ?k _] =>
      rewrite (getString_ok _ _ _ _ _ Hv Ht); simpl
  | Hv : Value ?h ?ctx ?k = Some ?v, Ht : well_typed ?k ?v = true
    |- context [getStringSlice ?h ?ctx _ ?k _] =>
      rewrite (getStringSlice_ok _ _ _ _ _ Hv Ht); simpl
  end.

Lemma Create_ok ctx path args h vout verr vin vdir venv :
  Value h ctx identStdout = Some vout → well_typed identStdout vout = true →
  Value h ctx identStderr = Some verr → well_typed identStderr verr = true →
  Value h ctx identStdin = Some vin → well_typed identStdin vin = true →
  Value h ctx identDir = Some vdir → well_typed identDir vdir = true →
  Value h ctx identEnv = Some venv → well_typed identEnv venv = true →
  Create ctx path args h =
  Some (inl (length (Cmds h)),
        mkHeap (rcCtxs h)
               (Cmds h ++ [resolved ctx path args vout verr vin vdir venv])).
Proof.
  intros H1 T1 H2 T2 H3 T3 H4 T4 H5 T5. unfold Create.
  rewrite (getWriter_ok _ _ _ _ _ _ H1 T1). simpl.
  rewrite (getWriter_ok _ _ _ _ _ _ H2 T2). simpl.
  rewrite (getReader_ok _ _ _ _ _ _ H3 T3). simpl.
  rewrite (getString_ok _ _ _ _ _ H4 T4). simpl.
  rewrite (getStringSlice_ok _ _ _ _ _ H5 T5). simpl.
  by rewrite configure_eq by (by apply stream_or_not_nil).
Qed.

Lemma Create_resolvable ctx path args h :
  resolvable h ctx = true →
  ∃ vout verr vin vdir venv,
    Value h ctx identStdout = Some vout ∧ well_typed identStdout vout = true ∧
    Value h ctx identStderr = Some verr ∧ well_typed identStderr verr = true ∧
    Value h ctx identStdin = Some vin ∧ well_typed identStdin vin = true ∧
    Value h ctx identDir = Some vdir ∧ well_typed identDir vdir = true ∧
    Value h ctx identEnv = Some venv ∧ well_typed identEnv venv = true ∧
    Create ctx path args h =
    Some (inl (length (Cmds h)),
          mkHeap (rcCtxs h)
                 (Cmds h ++ [resolved ctx path args vout verr vin vdir venv])).
Proof.
  unfold resolvable. simpl. rewrite !andb_true_iff.
  intros (H1 & H2 & H3 & H4 & H5 & _).
  apply typed_at_Some in H1 as (vout & ? & ?).
  apply typed_at_Some in H2 as (verr & ? & ?).
  apply typed_at_Some in H3 as (vin & ? & ?).
  apply typed_at_Some in H4 as (vdir & ? & ?).
  apply typed_at_Some in H5 as (venv & ? & ?).
  exists vout, verr, vin, vdir, venv. repeat (split; [done|]).
  by apply Create_ok.
Qed.

(** The first lookup that finds a value of another type ends [Create]. *)
Lemma Create_err ctx path args h pre k post v :
  lookup_order = (pre ++ k :: post)%list →
  forallb (typed_at h ctx) pre = true →
  Value h ctx k = Some v → well_typed k v = false →
  Create ctx path args h = Some (inr (assign_error k v), h).
Proof.
  intros Hsplit Hpre Hv Ht. unfold lookup_order in Hsplit.
  repeat (destruct pre as [|? pre];
          [injection Hsplit as <- <-|
           injection Hsplit as <- Hsplit;
           simpl in Hpre; apply andb_true_iff in Hpre as [Hk Hpre];
           apply typed_at_Some in Hk as (? & ? & ?)]);
    try (by destruct pre); unfold Create; repeat lookup_ok.
  - by rewrite (getWriter_err _ _ _ _ _ _ Hv Ht).
  - by rewrite (getWriter_err _ _ _ _ _ _ Hv Ht).
  - by rewrite (getReader_err _ _ _ _ _ _ Hv Ht).
  - by rewrite (getString_err _ _ _ _ _ _ Hv Ht).
  - by rewrite (getStringSlice_err _ _ _ _ _ _ Hv Ht).
Qed.

Lemma Create_stuck ctx path args h pre k post :
  lookup_order = (pre ++ k :: post)%list →
  forallb (typed_at h ctx) pre = true →
  Value h ctx k = None →
  Create ctx path args h = None.
Proof.
  intros Hsplit Hpre Hv. unfold lookup_order in Hsplit.
  repeat (destruct pre as [|? pre];
          [injection Hsplit as <- <-|
           injection Hsplit as <- Hsplit;
           simpl in Hpre; apply andb_true_iff in Hpre as [Hk Hpre];
           apply typed_at_Some in Hk as (? & ? & ?)]);
    try (by destruct pre); unfold Create; repeat lookup_ok;
    unfold getWriter, getReader, getString, getStringSlice; by rewrite Hv.
Qed.

(** [Create] returns a command only when the five lookups end with values
    of the types it converts to. *)
Lemma Create_inl_resolvable ctx path args h p h' :
  Create ctx path args h = Some (inl p, h') → resolvable h ctx = true.
Proof.
  intros HC. unfold resolvable.
  assert (∀ pre k post, lookup_order = (pre ++ k :: post)%list →
            forallb (typed_at h ctx) pre = true → typed_at h ctx k = true)
    as Hstep.
  { intros pre k post Hsplit Hpre. unfold typed_at.
    destruct (Value h ctx k) as [v|] eqn:Hv.
    - destruct (well_typed k v) eqn:Ht; [done|].
      by rewrite (Create_err _ path args _ _ _ _ _ Hsplit Hpre Hv Ht) in HC.
    - by rewrite (Create_stuck _ path args _ _ _ _ Hsplit Hpre Hv) in HC. }
  pose proof (Hstep [] _ _ eq_refl eq_refl) as H1.
  pose proof (Hstep [_] _ _ eq_refl) as H2. simpl in H2. rewrite H1 in H2.
  specialize (H2 eq_refl).
  pose proof (Hstep [_; _] _ _ eq_refl) as H3. simpl in H3.
  rewrite H1, H2 in H3. specialize (H3 eq_refl).
  pose proof (Hstep [_; _; _] _ _ eq_refl) as H4. simpl in H4.
  rewrite H1, H2, H3 in H4. specialize (H4 eq_refl).
  pose proof (Hstep [_; _; _; _] _ _ eq_refl) as H5. simpl in H5.
  rewrite H1, H2, H3, H4 in H5. specialize (H5 eq_refl).
  unfold lookup_order. simpl. by rewrite H1, H2, H3, H4, H5.
Qed.

(** The lookups only read the [rcCtx] structs. *)
Lemma Value_rcCtxs h h' c k :
  rcCtxs h' = rcCtxs h → Value h' c k = Value h c k.
Proof. unfold Value. by intros ->. Qed.

Lemma resolvable_rcCtxs h h' c :
  rcCtxs h' = rcCtxs h → resolvable h' c = resolvable h c.
Proof.
  intros Heq. unfold resolvable, typed_at, lookup_order. simpl.
  by rewrite !(Value_rcCtxs _ _ _ _ Heq).
Qed.

(** ** Chains and the latest call *)

Lemma last_set_None k os :
  k ∉ call_key <$> os → last_set k os = None.
Proof.
  induction os as [|o os IH]; simpl; [done|].
  rewrite not_elem_of_cons. intros [Hne Hnot].
  rewrite IH by done. by case_decide.
Qed.

Lemma last_set_NoDup o os :
  NoDup (call_key <$> os) → o ∈ os →
  last_set (call_key o) os = Some (call_value o).
Proof.
  induction os as [|o' os IH]; simpl.
  - intros _ Hin. by apply elem_of_nil in Hin.
  - rewrite NoDup_cons. intros [Hnot Hnd] Hin.
    apply elem_of_cons in Hin as [->|Hin].
    + rewrite last_set_None by done. by case_decide.
    + by rewrite IH.
Qed.

(** The arguments of the methods have the types of their parameters. *)
Lemma call_well_typed o : well_typed (call_key o) (call_value o) = true.
Proof. destruct o as [| | |[v Hv]|[v Hv]|[v Hv]]; simpl; done. Qed.

Lemma last_set_well_typed k os v :
  last_set k os = Some v → well_typed k v = true.
Proof.
  induction os as [|o os IH]; simpl; [done|].
  destruct (last_set k os) as [w|].
  - intros [= <-]. by apply IH.
  - case_decide as Hk; [|done]. intros [= <-]. subst k.
    apply call_well_typed.
Qed.

Lemma plain_Value_upto n cells c k :
  plain c = true → k ∈ option_keys → Value_upto n cells c k = Some Nil.
Proof.
  intros Hp Hk. induction c as [|p IHp|p IHp k' v|l]; simpl in Hp.
  - apply Value_upto_Background.
  - rewrite Value_upto_cancelCtx. by apply IHp.
  - rewrite Value_upto_valueCtx. destruct k'; try done.
    case_decide as Heq; [|by apply IHp]. subst k.
    unfold option_keys, lookup_order in Hk.
    repeat (apply elem_of_cons in Hk as [Hk|Hk]; [done|]).
    by apply elem_of_nil in Hk.
  - done.
Qed.

(** A plain context has none of the six options, whatever the heap. *)
Lemma plain_option_free h c : plain c = true → option_free h c = true.
Proof.
  intros Hp. unfold option_free. apply forallb_forall. intros k Hk.
  apply bool_decide_eq_true. apply plain_Value_upto; [done|].
  by apply list_elem_of_In.
Qed.

Lemma option_free_Nil h c k :
  option_free h c = true → k ∈ option_keys → Value h c k = Some Nil.
Proof.
  unfold option_free. rewrite forallb_forall. intros Hall Hk.
  apply list_elem_of_In in Hk. apply Hall in Hk.
  by apply bool_decide_eq_true in Hk.
Qed.

Example TestCreate :
  ∃ h cmd, chain test_calls 0 heap0 = Some (0, h) ∧
    Create (rcCtx 0) "ls" [] h = Some (inl 0, mkHeap (rcCtxs h) [cmd]) ∧
    Stdout cmd = bufA ∧ Stderr cmd = bufB ∧ Stdin cmd = bufC ∧
    Dir cmd = "/tmp/runcmd-test-1" ∧ Env cmd = Some ["FOO=bar"; "BAZ=quux"].
Proof. do 2 eexists. repeat split. Qed.

(** ** The claims *)

(** C1.  On any configuration context, the five calls [WithStdout(bufA)],
    [WithStderr(bufB)], [WithStdin(bufC)], [WithDir(tmpDir)] and
    [WithEnv("FOO=bar", "BAZ=quux")], chained in any order, are followed by
    a [Create] that returns a command whose streams are the three objects
    themselves, whose directory is [tmpDir] and whose environment is the
    two strings in that order; the order of the calls makes no
    difference.  The three streams are objects, not nil interfaces. *)
Theorem Create_five_options_any_order (h : heap) (l : Ctx)
  (outA errB : io_Writer) (inC : io_Reader) (tmpDir : string)
  (calls : list option_call) (path : string) (args : list string) :
  wf_heap h = true → l < length (rcCtxs h) →
  is_nil outA = false → is_nil errB = false → is_nil inC = false →
  calls ≡ₚ [CallStdout outA; CallStderr errB; CallStdin inC; CallDir tmpDir;
            CallEnv (Some ["FOO=bar"; "BAZ=quux"])] →
  ∃ h' cmd,
    chain calls l h = Some (l, h') ∧
    Create (rcCtx l) path args h' =
      Some (inl (length (Cmds h')), mkHeap (rcCtxs h') (Cmds h' ++ [cmd])) ∧
    Stdout cmd = outA ∧ Stderr cmd = errB ∧ Stdin cmd = inC ∧
    Dir cmd = tmpDir ∧ Env cmd = Some ["FOO=bar"; "BAZ=quux"].
Proof.
  intros Hwf Hl HA HB HC Hperm.
  destruct (chain_Value calls l h Hwf Hl) as (h' & Hchain & _ & _ & _ & Hval).
  assert (∀ o, o ∈ calls → Value h' (rcCtx l) (call_key o) = Some (call_value o))
    as Hset.
  { intros o Ho. rewrite Hval, last_set_NoDup; [done| |done].
    rewrite Hperm. simpl. by apply (bool_decide_unpack _). }
  exists h', (resolved (rcCtx l) path args outA errB inC (String_ tmpDir)
               (StringSlice (Some ["FOO=bar"; "BAZ=quux"]))).
  split; [done|]. split.
  - apply Create_ok;
      try (apply (call_well_typed (CallStdout outA)));
      try (apply (call_well_typed (CallStderr errB)));
      try (apply (call_well_typed (CallStdin inC))); try done.
    + apply (Hset (CallStdout outA)). rewrite Hperm. in_list.
    + apply (Hset (CallStderr errB)). rewrite Hperm. in_list.
    + apply (Hset (CallStdin inC)). rewrite Hperm. in_list.
    + apply (Hset (CallDir tmpDir)). rewrite Hperm. in_list.
    + apply (Hset (CallEnv (Some ["FOO=bar"; "BAZ=quux"]))). rewrite Hperm.
      in_list.
  - simpl. unfold stream_or. by rewrite HA, HB, HC.
Qed.

Lemma Create_five_options_any_order_witness :
  ∃ h' cmd,
    chain (reverse test_calls) 0 heap0 = Some (0, h') ∧
    Create (rcCtx 0) "ls" [] h' =
      Some (inl (length (Cmds h')), mkHeap (rcCtxs h') (Cmds h' ++ [cmd])) ∧
    Stdout cmd = bufA ∧ Stderr cmd = bufB ∧ Stdin cmd = bufC ∧
    Dir cmd = "/tmp/runcmd-test-1" ∧ Env cmd = Some ["FOO=bar"; "BAZ=quux"].
Proof.
  apply (Create_five_options_any_order heap0 0 bufA bufB bufC
           "/tmp/runcmd-test-1" (reverse test_calls) "ls" []).
  - reflexivity.
  - simpl. lia.
  - reflexivity.
  - reflexivity.
  - reflexivity.
  - apply reverse_Permutation.
Defined.

(** C2.  [Create] never looks up the key of the extra files: after
    [Context(context.Background()).WithExtraFiles(f)] the context answers
    the key with the slice that holds [f], and the command that [Create]
    returns has no extra files. *)
Theorem Create_drops_ExtraFiles :
  ∃ h cmd,
    WithExtraFiles 0 (Some [7]) heap0 = Some (0, h) ∧
    Value h (rcCtx 0) identExtraFiles = Some (FileSlice (Some [7])) ∧
    Create (rcCtx 0) "ls" [] h = Some (inl 0, mkHeap (rcCtxs h) [cmd]) ∧
    ExtraFiles cmd = None.
Proof. do 2 eexists. repeat split. Qed.

(** Whatever the context, a command that [Create] returns has no extra
    files. *)
Lemma Create_ExtraFiles ctx path args h p h' cmd :
  Create ctx path args h = Some (inl p, h') → Cmds h' !! p = Some cmd →
  Cmds h !! p = None → ExtraFiles cmd = None.
Proof.
  intros HC Hp Hnew. pose proof (Create_inl_resolvable _ _ _ _ _ _ HC) as Hr.
  destruct (Create_resolvable ctx path args h Hr)
    as (vout & verr & vin & vdir & venv & _ & _ & _ & _ & _ & _ & _ & _ & _ & _ & HC').
  rewrite HC' in HC. injection HC as <- <-. simpl in Hp.
  rewrite lookup_app_r, Nat.sub_diag in Hp by done. by injection Hp as <-.
Qed.

(** C3.  When the lookup of one of the five keys finds a value that is of
    another type than the one expected, [Create] returns an error and no
    command, and leaves the heap as it is.  The error is the one of the
    first such key [k1] in the order Stdout, Stderr, Stdin, Dir, Env: its
    message has the prefix naming [k1], then the name of [k1] again and the
    type of the value found, and it wraps the error of the lookup. *)
Theorem Create_type_mismatch (h : heap) (ctx : context) (path : string)
  (args : list string) (k : key) (v : value) :
  wf_heap h = true → in_heap h ctx = true →
  k ∈ lookup_order → Value h ctx k = Some v → well_typed k v = false →
  ∃ pre k1 post v1 e,
    lookup_order = (pre ++ k1 :: post)%list ∧
    forallb (typed_at h ctx) pre = true ∧
    Value h ctx k1 = Some v1 ∧ is_nil v1 = false ∧ well_typed k1 v1 = false ∧
    Create ctx path args h = Some (inr e, h) ∧
    Error e = "failed to assign " +:+ option_name k1 +:+ ": expected " +:+
              expected k1 +:+ " for " +:+ option_name k1 +:+ ", got " +:+
              typeName v1 ∧
    Unwrap e = Some (errorString ("expected " +:+ expected k1 +:+ " for " +:+
                                  option_name k1 +:+ ", got " +:+ typeName v1)).
Proof.
  intros Hwf Hin Hk Hv Ht.
  assert (∀ ks, (∀ k', k' ∈ ks → k' ∈ lookup_order) →
            forallb (typed_at h ctx) ks = false →
            ∃ pre k1 post v1, ks = (pre ++ k1 :: post)%list ∧
              forallb (typed_at h ctx) pre = true ∧
              Value h ctx k1 = Some v1 ∧ well_typed k1 v1 = false) as Hfirst.
  { induction ks as [|k0 ks IH]; simpl; [done|]. intros Hsub Hall.
    destruct (typed_at h ctx k0) eqn:E0; simpl in Hall.
    - destruct IH as (pre & k1 & post & v1 & -> & Hpre & Hv1 & Ht1); [|done|].
      { intros k' Hk'. apply Hsub. by right. }
      exists (k0 :: pre), k1, post, v1. simpl. by rewrite E0.
    - destruct (Value_total h ctx k0 Hwf Hin) as [v0 Hv0].
      exists [], k0, ks, v0. unfold typed_at in E0. by rewrite Hv0 in E0. }
  destruct (Hfirst lookup_order) as (pre & k1 & post & v1 & Hsplit & Hpre & Hv1 & Ht1);
    [done| |].
  { apply not_true_iff_false. rewrite forallb_forall. intros Hall.
    apply list_elem_of_In in Hk. apply Hall in Hk. unfold typed_at in Hk.
    rewrite Hv in Hk. congruence. }
  exists pre, k1, post, v1, (assign_error k1 v1).
  split; [done|]. split; [done|]. split; [done|]. split.
  { destruct v1; try done. by destruct k1. }
  split; [done|]. split; [by eapply Create_err|].
  assert (k1 ∈ lookup_order) as Hk1.
  { rewrite Hsplit. apply elem_of_app. right. by left. }
  unfold lookup_order in Hk1.
  repeat (apply elem_of_cons in Hk1 as [->|Hk1]; [by split|]).
  by apply elem_of_nil in Hk1.
Qed.

Lemma Create_type_mismatch_witness :
  ∃ pre k1 post v1 e,
    lookup_order = (pre ++ k1 :: post)%list ∧
    forallb (typed_at (mkHeap [] []) bad_stdout_dir) pre = true ∧
    Value (mkHeap [] []) bad_stdout_dir k1 = Some v1 ∧ is_nil v1 = false ∧
    well_typed k1 v1 = false ∧
    Create bad_stdout_dir "ls" [] (mkHeap [] []) = Some (inr e, mkHeap [] []) ∧
    Error e = "failed to assign " +:+ option_name k1 +:+ ": expected " +:+
              expected k1 +:+ " for " +:+ option_name k1 +:+ ", got " +:+
              typeName v1 ∧
    Unwrap e = Some (errorString ("expected " +:+ expected k1 +:+ " for " +:+
                                  option_name k1 +:+ ", got " +:+ typeName v1)).
Proof.
  apply (Create_type_mismatch (mkHeap [] []) bad_stdout_dir "ls" [] identDir
           (Object go_int 7)).
  - reflexivity.
  - reflexivity.
  - apply list_elem_of_In. simpl. tauto.
  - reflexivity.
  - reflexivity.
Defined.

(** The error of the context with two values of other types is the one
    for the standard output, the first key looked up. *)
Example Create_bad_stdout_dir :
  ∃ e, Create bad_stdout_dir "ls" [] (mkHeap [] []) = Some (inr e, mkHeap [] []) ∧
    Error e = "failed to assign Stdout: expected io.Writer for Stdout, got string" ∧
    Unwrap e = Some (errorString "expected io.Writer for Stdout, got string").
Proof. eexists. repeat split. Qed.

(** A [Create] that returns an error has allocated nothing. *)
Lemma Create_inr_heap ctx path args h e h' :
  Create ctx path args h = Some (inr e, h') → h' = h.
Proof.
  unfold Create. intros H.
  repeat match type of H with
  | (match ?x with _ => _ end) = _ => destruct x; simpl in H
  | (_ ≫= _) = _ => apply bind_Some in H as ([? ?] & _ & H); simpl in H
  end; by simplify_eq.
Qed.

(** The lookups through the receiver after one call, for a context that
    [Create] could resolve before: it still can. *)
Lemma resolvable_call o l h c :
  wf_heap h = true → rcCtxs h !! l = Some c → resolvable h (rcCtx l) = true →
  resolvable (set_Context l (valueCtx c (call_key o) (call_value o)) h)
             (rcCtx l) = true.
Proof.
  intros Hwf Hl. unfold resolvable. rewrite !forallb_forall.
  intros Hall k Hk. specialize (Hall k Hk). unfold typed_at in *.
  rewrite Value_set_Context by done. case_decide as Heq; [|done].
  subst k. apply call_well_typed.
Qed.

(** C4.  After [WithEnv] with a list that is empty and not nil, [Create]
    returns a command whose environment is that empty list; on a context
    whose lookup of the key finds nothing the environment of the command is
    left nil; the two are different. *)
Theorem Create_empty_Env (h : heap) (l : Ctx) (path : string)
  (args : list string) :
  wf_heap h = true → l < length (rcCtxs h) → resolvable h (rcCtx l) = true →
  (∃ h' cmd,
     WithEnv l (Some []) h = Some (l, h') ∧
     Create (rcCtx l) path args h' =
       Some (inl (length (Cmds h')), mkHeap (rcCtxs h') (Cmds h' ++ [cmd])) ∧
     Env cmd = Some []) ∧
  (Value h (rcCtx l) identEnv = Some Nil →
   ∃ cmd0,
     Create (rcCtx l) path args h =
       Some (inl (length (Cmds h)), mkHeap (rcCtxs h) (Cmds h ++ [cmd0])) ∧
     Env cmd0 = None) ∧
  Some [] ≠ @None (list string).
Proof.
  intros Hwf Hl Hr. destruct (lookup_lt_is_Some_2 _ _ Hl) as [c Hc].
  split; [|split; [|done]].
  - pose proof (call_eq (CallEnv (Some [])) l h c Hc) as Hcall. simpl in Hcall.
    pose proof (resolvable_call (CallEnv (Some [])) l h c Hwf Hc Hr) as Hr'.
    simpl in Hr'. set (h' := set_Context l _ h) in *.
    destruct (Create_resolvable (rcCtx l) path args h' Hr')
      as (vout & verr & vin & vdir & venv & _ & _ & _ & _ & _ & _ & _ & _
          & Hv & _ & HC).
    unfold h' in Hv. rewrite Value_set_Context in Hv by done.
    case_decide; [|done]. injection Hv as <-.
    by exists h', (resolved (rcCtx l) path args vout verr vin vdir
                    (StringSlice (Some []))).
  - intros Hnil.
    destruct (Create_resolvable (rcCtx l) path args h Hr)
      as (vout & verr & vin & vdir & venv & _ & _ & _ & _ & _ & _ & _ & _
          & Hv & _ & HC).
    rewrite Hnil in Hv. injection Hv as <-.
    by exists (resolved (rcCtx l) path args vout verr vin vdir Nil).
Qed.

Lemma Create_empty_Env_witness :
  (∃ h' cmd,
     WithEnv 0 (Some []) heap0 = Some (0, h') ∧
     Create (rcCtx 0) "env" [] h' =
       Some (inl (length (Cmds h')), mkHeap (rcCtxs h') (Cmds h' ++ [cmd])) ∧
     Env cmd = Some []) ∧
  (Value heap0 (rcCtx 0) identEnv = Some Nil →
   ∃ cmd0,
     Create (rcCtx 0) "env" [] heap0 =
       Some (inl (length (Cmds heap0)),
             mkHeap (rcCtxs heap0) (Cmds heap0 ++ [cmd0])) ∧
     Env cmd0 = None) ∧
  Some [] ≠ @None (list string).
Proof.
  apply (Create_empty_Env heap0 0 "env" []).
  - reflexivity.
  - simpl. lia.
  - reflexivity.
Defined.

(** C5.  On a context with none of the six options, [Create] returns a
    command whose streams are the three standard streams of the process,
    whose directory is empty and whose environment is nil. *)
Theorem Create_defaults (h : heap) (ctx : context) (path : string)
  (args : list string) :
  option_free h ctx = true →
  ∃ cmd,
    Create ctx path args h =
      Some (inl (length (Cmds h)), mkHeap (rcCtxs h) (Cmds h ++ [cmd])) ∧
    Stdout cmd = os_Stdout ∧ Stderr cmd = os_Stderr ∧ Stdin cmd = os_Stdin ∧
    Dir cmd = "" ∧ Env cmd = None ∧ ExtraFiles cmd = None.
Proof.
  intros Hfree.
  assert (∀ k, k ∈ lookup_order → Value h ctx k = Some Nil) as Hnil.
  { intros k Hk. apply option_free_Nil; [done|]. by right. }
  exists (resolved ctx path args Nil Nil Nil Nil Nil). split; [|done].
  apply Create_ok; try done; apply Hnil; in_list.
Qed.

Lemma Create_defaults_witness :
  ∃ cmd,
    Create plain_ctx "ls" ["-l"] (mkHeap [] []) =
      Some (inl 0, mkHeap [] ([] ++ [cmd])) ∧
    Stdout cmd = os_Stdout ∧ Stderr cmd = os_Stderr ∧ Stdin cmd = os_Stdin ∧
    Dir cmd = "" ∧ Env cmd = None ∧ ExtraFiles cmd = None.
Proof.
  apply (Create_defaults (mkHeap [] []) plain_ctx "ls" ["-l"]).
  reflexivity.
Defined.

(** C6.  After [WithDir] with the empty string the directory of the
    command is empty, as it is when the lookup of the key finds nothing;
    the directory of the command is not empty only when the lookup finds
    that string. *)
Theorem Create_Dir_unset (h : heap) (l : Ctx) (path : string)
  (args : list string) :
  wf_heap h = true → l < length (rcCtxs h) → resolvable h (rcCtx l) = true →
  (∃ h' cmd,
     WithDir l "" h = Some (l, h') ∧
     Create (rcCtx l) path args h' =
       Some (inl (length (Cmds h')), mkHeap (rcCtxs h') (Cmds h' ++ [cmd])) ∧
     Dir cmd = "") ∧
  (∃ cmd vdir,
     Create (rcCtx l) path args h =
       Some (inl (length (Cmds h)), mkHeap (rcCtxs h) (Cmds h ++ [cmd])) ∧
     Value h (rcCtx l) identDir = Some vdir ∧
     (vdir = Nil → Dir cmd = "") ∧
     (∀ s, vdir = String_ s → Dir cmd = s) ∧
     (Dir cmd ≠ "" → vdir = String_ (Dir cmd))).
Proof.
  intros Hwf Hl Hr. destruct (lookup_lt_is_Some_2 _ _ Hl) as [c Hc]. split.
  - pose proof (call_eq (CallDir "") l h c Hc) as Hcall. simpl in Hcall.
    pose proof (resolvable_call (CallDir "") l h c Hwf Hc Hr) as Hr'.
    simpl in Hr'. set (h' := set_Context l _ h) in *.
    destruct (Create_resolvable (rcCtx l) path args h' Hr')
      as (vout & verr & vin & vdir & venv & _ & _ & _ & _ & _ & _ & Hv & _
          & _ & _ & HC).
    unfold h' in Hv. rewrite Value_set_Context in Hv by done.
    case_decide; [|done]. injection Hv as <-.
    by exists h', (resolved (rcCtx l) path args vout verr vin (String_ "") venv).
  - destruct (Create_resolvable (rcCtx l) path args h Hr)
      as (vout & verr & vin & vdir & venv & _ & _ & _ & _ & _ & _ & Hv & Ht
          & _ & _ & HC).
    exists (resolved (rcCtx l) path args vout verr vin vdir venv), vdir.
    split; [done|]. split; [done|]. simpl.
    split; [by intros ->|]. split; [by intros s ->|].
    by destruct vdir.
Qed.

Lemma Create_Dir_unset_witness :
  (∃ h' cmd,
     WithDir 0 "" heap0 = Some (0, h') ∧
     Create (rcCtx 0) "pwd" [] h' =
       Some (inl (length (Cmds h')), mkHeap (rcCtxs h') (Cmds h' ++ [cmd])) ∧
     Dir cmd = "") ∧
  (∃ cmd vdir,
     Create (rcCtx 0) "pwd" [] heap0 =
       Some (inl (length (Cmds heap0)),
             mkHeap (rcCtxs heap0) (Cmds heap0 ++ [cmd])) ∧
     Value heap0 (rcCtx 0) identDir = Some vdir ∧
     (vdir = Nil → Dir cmd = "") ∧
     (∀ s, vdir = String_ s → Dir cmd = s) ∧
     (Dir cmd ≠ "" → vdir = String_ (Dir cmd))).
Proof.
  apply (Create_Dir_unset heap0 0 "pwd" []).
  - reflexivity.
  - simpl. lia.
  - reflexivity.
Defined.

(** C7.  Each of the six methods, called on a struct of the heap, returns
    the receiver itself and stores in the receiver a [valueCtx] that holds
    the key and the value of the call over the context the receiver
    embedded before.  No other struct and no command changes; that former
    context answers every key as before; through the receiver, which is
    also the value returned, the key of the call now gives the value of
    the call and every other key what it gave before. *)
Theorem With_updates_receiver (o : option_call) (l : Ctx) (h : heap)
  (c : context) :
  wf_heap h = true → rcCtxs h !! l = Some c →
  ∃ h',
    call o l h = Some (l, h') ∧
    rcCtxs h' !! l = Some (valueCtx c (call_key o) (call_value o)) ∧
    (∀ l', l' ≠ l → rcCtxs h' !! l' = rcCtxs h !! l') ∧
    length (rcCtxs h') = length (rcCtxs h) ∧
    Cmds h' = Cmds h ∧
    wf_heap h' = true ∧
    (∀ k, Value h' c k = Value h c k) ∧
    Value h' (rcCtx l) (call_key o) = Some (call_value o) ∧
    (∀ k, k ≠ call_key o → Value h' (rcCtx l) k = Value h (rcCtx l) k).
Proof.
  intros Hwf Hl. pose proof (lookup_lt_Some _ _ _ Hl) as Hlt.
  exists (set_Context l (valueCtx c (call_key o) (call_value o)) h).
  split; [by apply call_eq|]. simpl.
  split; [by apply list_lookup_insert_eq|].
  split; [by intros l' Hne; apply list_lookup_insert_ne|].
  split; [by apply length_insert|]. split; [done|].
  split; [by apply wf_heap_set_Context|].
  split.
  { intros k. apply Value_set_Context_other; try done.
    apply wf_heap_cells in Hwf. by apply Hwf. }
  split.
  - rewrite Value_set_Context by done. by case_decide.
  - intros k Hne. rewrite Value_set_Context by done. by case_decide.
Qed.

Lemma With_updates_receiver_witness :
  ∃ h',
    WithStdout 0 bufA heap0 = Some (0, h') ∧
    rcCtxs h' !! 0 = Some (valueCtx Background identStdout bufA) ∧
    (∀ l', l' ≠ 0 → rcCtxs h' !! l' = rcCtxs heap0 !! l') ∧
    length (rcCtxs h') = length (rcCtxs heap0) ∧
    Cmds h' = Cmds heap0 ∧
    wf_heap h' = true ∧
    (∀ k, Value h' Background k = Value heap0 Background k) ∧
    Value h' (rcCtx 0) identStdout = Some (bufA : value) ∧
    (∀ k, k ≠ identStdout → Value h' (rcCtx 0) k = Value heap0 (rcCtx 0) k).
Proof.
  apply (With_updates_receiver (CallStdout bufA) 0 heap0 Background).
  - reflexivity.
  - reflexivity.
Defined.

(** C8.  [Run] returns what [Create] and then the method [Run] of the
    command return: when [Create] fails, its error wrapped behind the
    prefix and nothing else done; otherwise the result of running the
    command once, as it is, error and heap. *)
Theorem Run_result (Cmd_Run : ptr → heap → option error * heap)
  (ctx : context) (path : string) (args : list string) (h : heap) :
  match Create ctx path args h with
  | Some (inr err, h') =>
      h' = h ∧
      ∃ e, Run Cmd_Run ctx path args h = Some (Some e, h) ∧
           Error e = "failed to create *exec.Cmd: " +:+ Error err ∧
           Unwrap e = Some err
  | Some (inl cmd, h') =>
      Run Cmd_Run ctx path args h = Some (Cmd_Run cmd h') ∧
      cmd = length (Cmds h) ∧ resolvable h ctx = true
  | None => Run Cmd_Run ctx path args h = None
  end.
Proof.
  unfold Run. destruct (Create ctx path args h) as [[[cmd|err] h']|] eqn:HC;
    simpl; [| |done].
  - split; [done|].
    pose proof (Create_inl_resolvable _ _ _ _ _ _ HC) as Hr. split; [|done].
    destruct (Create_resolvable ctx path args h Hr)
      as (? & ? & ? & ? & ? & _ & _ & _ & _ & _ & _ & _ & _ & _ & _ & HC').
    rewrite HC' in HC. by injection HC as <- _.
  - assert (h' = h) as ->; [|by split; [|eexists]].
    by eapply Create_inr_heap.
Qed.

(** [Run] on the context with a string for the standard output, and on
    the plain context with a command that exits with status 1. *)
Example Run_bad_stdout :
  ∃ e, Run exit_1 bad_stdout "ls" [] (mkHeap [] []) = Some (Some e, mkHeap [] []) ∧
    Error e = "failed to create *exec.Cmd: failed to assign Stdout: expected io.Writer for Stdout, got string".
Proof. eexists. split; reflexivity. Qed.

Example Run_exit_1 :
  ∃ cmd, Run exit_1 plain_ctx "false" [] (mkHeap [] []) =
    Some (Some (errorString "exit status 1"), mkHeap [] [cmd]).
Proof. eexists. reflexivity. Qed.

(** C9.  [Create] leaves the [rcCtx] structs and every lookup as they
    were.  When it returns a command, a second [Create] with the same
    context, path and arguments returns another one: the two pointers
    differ, the two commands have the same fields, and the structs and the
    lookups are still what they were before the first call.  When it
    returns an error, the second call returns the same error. *)
Theorem Create_twice (ctx : context) (path : string) (args : list string)
  (h h1 : heap) (r : ptr + error) :
  Create ctx path args h = Some (r, h1) →
  rcCtxs h1 = rcCtxs h ∧
  (∀ c k, Value h1 c k = Value h c k) ∧
  match r with
  | inl p1 =>
      ∃ p2 h2 c1 c2,
        Create ctx path args h1 = Some (inl p2, h2) ∧
        p1 ≠ p2 ∧
        Cmds h2 !! p1 = Some c1 ∧ Cmds h2 !! p2 = Some c2 ∧
        Stdout c1 = Stdout c2 ∧ Stderr c1 = Stderr c2 ∧ Stdin c1 = Stdin c2 ∧
        Dir c1 = Dir c2 ∧ Env c1 = Env c2 ∧ ExtraFiles c1 = ExtraFiles c2 ∧
        Path c1 = Path c2 ∧ Args c1 = Args c2 ∧
        rcCtxs h2 = rcCtxs h ∧
        (∀ c k, Value h2 c k = Value h c k)
  | inr e => Create ctx path args h1 = Some (inr e, h1)
  end.
Proof.
  intros HC. pose proof (Create_rcCtxs _ _ _ _ _ _ HC) as Heq.
  split; [done|]. split; [by intros c k; apply Value_rcCtxs|].
  destruct r as [p1|e].
  - pose proof (Create_inl_resolvable _ _ _ _ _ _ HC) as Hr.
    destruct (Create_resolvable ctx path args h Hr)
      as (vout & verr & vin & vdir & venv & H1 & T1 & H2 & T2 & H3 & T3 & H4
          & T4 & H5 & T5 & HC').
    rewrite HC' in HC. injection HC as <- <-. clear Heq.
    set (cmd := resolved ctx path args vout verr vin vdir venv).
    set (h1 := mkHeap (rcCtxs h) (Cmds h ++ [cmd])).
    assert (rcCtxs h1 = rcCtxs h) as Heq by done.
    exists (length (Cmds h1)), (mkHeap (rcCtxs h1) (Cmds h1 ++ [cmd])), cmd, cmd.
    split.
    { apply Create_ok; try done; by rewrite (Value_rcCtxs _ _ _ _ Heq). }
    split. { unfold h1. simpl. rewrite length_app. simpl. lia. }
    split.
    { simpl. rewrite lookup_app_l by (rewrite length_app; simpl; lia).
      by rewrite lookup_app_r, Nat.sub_diag. }
    split. { simpl. by rewrite lookup_app_r, Nat.sub_diag. }
    repeat (split; [done|]). intros c k. by apply Value_rcCtxs.
  - pose proof (Create_inr_heap _ _ _ _ _ _ HC) as ->. exact HC.
Qed.

Lemma Create_twice_witness :
  rcCtxs (mkHeap (rcCtxs heap0)
    ([] ++ [resolved (rcCtx 0) "ls" [] Nil Nil Nil Nil Nil])) = rcCtxs heap0 ∧
  (∀ c k, Value (mkHeap (rcCtxs heap0)
    ([] ++ [resolved (rcCtx 0) "ls" [] Nil Nil Nil Nil Nil])) c k =
    Value heap0 c k) ∧
  ∃ p2 h2 c1 c2,
    Create (rcCtx 0) "ls" [] (mkHeap (rcCtxs heap0)
      ([] ++ [resolved (rcCtx 0) "ls" [] Nil Nil Nil Nil Nil])) =
      Some (inl p2, h2) ∧
    0 ≠ p2 ∧
    Cmds h2 !! 0 = Some c1 ∧ Cmds h2 !! p2 = Some c2 ∧
    Stdout c1 = Stdout c2 ∧ Stderr c1 = Stderr c2 ∧ Stdin c1 = Stdin c2 ∧
    Dir c1 = Dir c2 ∧ Env c1 = Env c2 ∧ ExtraFiles c1 = ExtraFiles c2 ∧
    Path c1 = Path c2 ∧ Args c1 = Args c2 ∧
    rcCtxs h2 = rcCtxs heap0 ∧
    (∀ c k, Value h2 c k = Value heap0 c k).
Proof.
  apply (Create_twice (rcCtx 0) "ls" [] heap0 _ (inl 0)). reflexivity.
Defined.

(** C10.  On [Context(base)] over a base without options, after any chain
    of calls of the six methods, every lookup of [Create] finds nil or a
    value of the type it converts to, and [Create] returns a command, not
    an error. *)
Theorem Create_total_on_built (h : heap) (base : context)
  (calls : list option_call) (path : string) (args : list string) :
  wf_heap h = true → in_heap h base = true → option_free h base = true →
  ∃ h' cmd,
    chain calls (Context base h).1 (Context base h).2 =
      Some ((Context base h).1, h') ∧
    resolvable h' (rcCtx (Context base h).1) = true ∧
    Create (rcCtx (Context base h).1) path args h' =
      Some (inl (length (Cmds h')), mkHeap (rcCtxs h') (Cmds h' ++ [cmd])).
Proof.
  intros Hwf Hin Hfree.
  pose proof (wf_heap_Context h base Hwf Hin) as Hwf0.
  set (l := (Context base h).1) in *. set (h0 := (Context base h).2) in *.
  assert (l < length (rcCtxs h0)) as Hl.
  { unfold l, h0. simpl. rewrite length_app. simpl. lia. }
  destruct (chain_Value calls l h0 Hwf0 Hl) as (h' & Hchain & _ & _ & _ & Hval).
  assert (resolvable h' (rcCtx l) = true) as Hr.
  { unfold resolvable. apply forallb_forall. intros k Hk.
    unfold typed_at. rewrite Hval.
    destruct (last_set k calls) as [v|] eqn:Hlast.
    - by eapply last_set_well_typed.
    - unfold l, h0. rewrite Value_Context by done.
      rewrite (option_free_Nil h base k Hfree).
      + by destruct k.
      + right. by apply list_elem_of_In. }
  destruct (Create_resolvable (rcCtx l) path args h' Hr)
    as (vout & verr & vin & vdir & venv & _ & _ & _ & _ & _ & _ & _ & _ & _
        & _ & HC).
  by exists h', (resolved (rcCtx l) path args vout verr vin vdir venv).
Qed.

Lemma Create_total_on_built_witness :
  ∃ h' cmd,
    chain [CallStdout bufA; CallExtraFiles (Some [7]); CallEnv None;
           CallStdout bufB]
          (Context plain_ctx (mkHeap [] [])).1
          (Context plain_ctx (mkHeap [] [])).2 =
      Some ((Context plain_ctx (mkHeap [] [])).1, h') ∧
    resolvable h' (rcCtx (Context plain_ctx (mkHeap [] [])).1) = true ∧
    Create (rcCtx (Context plain_ctx (mkHeap [] [])).1) "ls" [] h' =
      Some (inl (length (Cmds h')), mkHeap (rcCtxs h') (Cmds h' ++ [cmd])).
Proof.
  apply (Create_total_on_built (mkHeap [] []) plain_ctx
           [CallStdout bufA; CallExtraFiles (Some [7]); CallEnv None;
            CallStdout bufB] "ls" []).
  - reflexivity.
  - reflexivity.
  - reflexivity.
Defined.

(** ** Further properties *)

(** A lookup through a pointer is the lookup in the context the struct
    embeds. *)
Lemma Value_rcCtx h l c k :
  wf_heap h = true → rcCtxs h !! l = Some c →
  Value h (rcCtx l) k = Value h c k.
Proof.
  intros Hwf Hl. unfold Value.
  pose proof (lookup_lt_Some _ _ _ Hl) as Hlt.
  destruct (length (rcCtxs h)) as [|n] eqn:Hlen; [lia|].
  rewrite Value_upto_rcCtx, Hl. apply wf_heap_cells in Hwf.
  destruct (Value_upto_agree l n (S n) (rcCtxs h) (rcCtxs h) c k)
    as (w & -> & ->); try done; try lia.
  by apply Hwf.
Qed.

(** The lookups in the contexts of the heap are not changed by the
    allocation of a struct. *)
Lemma Value_Context_other h ctx c k :
  wf_heap h = true → in_heap h c = true →
  Value (Context ctx h).2 c k = Value h c k.
Proof.
  intros Hwf Hc. unfold Value. simpl. apply wf_heap_cells in Hwf.
  destruct (Value_upto_agree (length (rcCtxs h)) (length (rcCtxs h))
    (length (rcCtxs h ++ [ctx])) (rcCtxs h) (rcCtxs h ++ [ctx]) c k)
    as (w & -> & ->); try done.
  - intros l Hl. by apply lookup_app_l.
  - rewrite length_app. lia.
Qed.

Lemma first_mistyped h ctx ks :
  (∀ k, k ∈ ks → is_Some (Value h ctx k)) →
  forallb (typed_at h ctx) ks = false →
  ∃ pre k1 post v1, ks = (pre ++ k1 :: post)%list ∧
    forallb (typed_at h ctx) pre = true ∧
    Value h ctx k1 = Some v1 ∧ well_typed k1 v1 = false.
Proof.
  induction ks as [|k0 ks IH]; simpl; [done|]. intros Hsome Hall.
  destruct (typed_at h ctx k0) eqn:E0; simpl in Hall.
  - destruct IH as (pre & k1 & post & v1 & -> & Hpre & Hv1 & Ht1); [|done|].
    { intros k' Hk'. apply Hsome. by right. }
    exists (k0 :: pre), k1, post, v1. simpl. by rewrite E0.
  - destruct (Hsome k0) as [v0 Hv0]; [by left|].
    exists [], k0, ks, v0. unfold typed_at in E0. by rewrite Hv0 in E0.
Qed.

(** A chain of calls on a context that [Create] can resolve: [Create] can
    still resolve it, from the values of [latest]. *)
Lemma chain_Create calls l h path args :
  wf_heap h = true → l < length (rcCtxs h) → resolvable h (rcCtx l) = true →
  ∃ h' vout verr vin vdir venv,
    chain calls l h = Some (l, h') ∧
    latest h l calls identStdout = Some vout ∧
    latest h l calls identStderr = Some verr ∧
    latest h l calls identStdin = Some vin ∧
    latest h l calls identDir = Some vdir ∧
    latest h l calls identEnv = Some venv ∧
    Create (rcCtx l) path args h' =
      Some (inl (length (Cmds h')),
            mkHeap (rcCtxs h')
              (Cmds h' ++
               [resolved (rcCtx l) path args vout verr vin vdir venv])).
Proof.
  intros Hwf Hl Hr.
  destruct (chain_Value calls l h Hwf Hl) as (h' & Hchain & _ & _ & _ & Hval).
  assert (∀ k, k ∈ lookup_order →
            ∃ v, latest h l calls k = Some v ∧ Value h' (rcCtx l) k = Some v ∧
                 well_typed k v = true) as Hk.
  { intros k Hk. rewrite Hval. unfold latest.
    destruct (last_set k calls) as [v|] eqn:Hlast.
    - exists v. split; [done|]. split; [done|]. by eapply last_set_well_typed.
    - unfold resolvable in Hr. rewrite forallb_forall in Hr.
      apply list_elem_of_In in Hk. apply Hr in Hk.
      apply typed_at_Some in Hk as (v & Hv & Ht). by exists v. }
  destruct (Hk identStdout) as (vout & ? & ? & ?); [in_list|].
  destruct (Hk identStderr) as (verr & ? & ? & ?); [in_list|].
  destruct (Hk identStdin) as (vin & ? & ? & ?); [in_list|].
  destruct (Hk identDir) as (vdir & ? & ? & ?); [in_list|].
  destruct (Hk identEnv) as (venv & ? & ? & ?); [in_list|].
  exists h', vout, verr, vin, vdir, venv. repeat (split; [done|]).
  by apply Create_ok.
Qed.

(** X1.  After any chain of calls on a context that [Create] can resolve,
    the fields of the command come, option by option, from the latest
    call of the chain for that option, and from what the context carried
    before the chain when the chain has no call for it: a later call
    shadows the earlier ones. *)
Theorem chain_latest_call_wins (calls : list option_call) (l : Ctx) (h : heap)
  (path : string) (args : list string) :
  wf_heap h = true → l < length (rcCtxs h) → resolvable h (rcCtx l) = true →
  ∃ h' cmd vout verr vin vdir venv,
    chain calls l h = Some (l, h') ∧
    Create (rcCtx l) path args h' =
      Some (inl (length (Cmds h')), mkHeap (rcCtxs h') (Cmds h' ++ [cmd])) ∧
    latest h l calls identStdout = Some vout ∧
    Stdout cmd = stream_or os_Stdout vout ∧
    latest h l calls identStderr = Some verr ∧
    Stderr cmd = stream_or os_Stderr verr ∧
    latest h l calls identStdin = Some vin ∧
    Stdin cmd = stream_or os_Stdin vin ∧
    latest h l calls identDir = Some vdir ∧ Dir cmd = dir_of vdir ∧
    latest h l calls identEnv = Some venv ∧ Env cmd = env_of venv.
Proof.
  intros Hwf Hl Hr.
  destruct (chain_Create calls l h path args Hwf Hl Hr)
    as (h' & vout & verr & vin & vdir & venv & ? & ? & ? & ? & ? & ? & ?).
  by exists h', (resolved (rcCtx l) path args vout verr vin vdir venv),
    vout, verr, vin, vdir, venv.
Qed.

Lemma chain_latest_call_wins_witness :
  ∃ h' cmd vout verr vin vdir venv,
    chain [CallDir "/a"; CallStdout bufA; CallDir "/b"] 0 heap0 = Some (0, h') ∧
    Create (rcCtx 0) "ls" [] h' =
      Some (inl (length (Cmds h')), mkHeap (rcCtxs h') (Cmds h' ++ [cmd])) ∧
    latest heap0 0 [CallDir "/a"; CallStdout bufA; CallDir "/b"] identStdout
      = Some vout ∧
    Stdout cmd = stream_or os_Stdout vout ∧
    latest heap0 0 [CallDir "/a"; CallStdout bufA; CallDir "/b"] identStderr
      = Some verr ∧
    Stderr cmd = stream_or os_Stderr verr ∧
    latest heap0 0 [CallDir "/a"; CallStdout bufA; CallDir "/b"] identStdin
      = Some vin ∧
    Stdin cmd = stream_or os_Stdin vin ∧
    latest heap0 0 [CallDir "/a"; CallStdout bufA; CallDir "/b"] identDir
      = Some vdir ∧ Dir cmd = dir_of vdir ∧
    latest heap0 0 [CallDir "/a"; CallStdout bufA; CallDir "/b"] identEnv
      = Some venv ∧ Env cmd = env_of venv.
Proof.
  apply (chain_latest_call_wins [CallDir "/a"; CallStdout bufA; CallDir "/b"]
           0 heap0 "ls" []).
  - reflexivity.
  - simpl. lia.
  - reflexivity.
Defined.

(** X2.  A call of [WithStdout], [WithStderr] or [WithStdin] with the nil
    interface makes [Create] use the standard stream of the process again,
    whatever stream the context carried before: the nil that is stored
    hides the earlier value and is itself taken as no value. *)
Theorem With_nil_stream_resets (l : Ctx) (h : heap) (path : string)
  (args : list string) :
  wf_heap h = true → l < length (rcCtxs h) → resolvable h (rcCtx l) = true →
  ∃ h' cmd,
    chain [CallStdout nil_Writer; CallStderr nil_Writer; CallStdin nil_Reader]
          l h = Some (l, h') ∧
    Create (rcCtx l) path args h' =
      Some (inl (length (Cmds h')), mkHeap (rcCtxs h') (Cmds h' ++ [cmd])) ∧
    Stdout cmd = os_Stdout ∧ Stderr cmd = os_Stderr ∧ Stdin cmd = os_Stdin.
Proof.
  intros Hwf Hl Hr.
  destruct (chain_Create
    [CallStdout nil_Writer; CallStderr nil_Writer; CallStdin nil_Reader]
    l h path args Hwf Hl Hr)
    as (h' & vout & verr & vin & vdir & venv & ? & Ho & He & Hi & _ & _ & ?).
  unfold latest in Ho, He, Hi. simpl in Ho, He, Hi.
  injection Ho as <-. injection He as <-. injection Hi as <-.
  by exists h', (resolved (rcCtx l) path args Nil Nil Nil vdir venv).
Qed.

Lemma With_nil_stream_resets_witness :
  ∃ h' cmd,
    chain [CallStdout nil_Writer; CallStderr nil_Writer; CallStdin nil_Reader]
          0 (set_Context 0 (valueCtx Background identStdout bufA) heap0)
      = Some (0, h') ∧
    Create (rcCtx 0) "ls" [] h' =
      Some (inl (length (Cmds h')), mkHeap (rcCtxs h') (Cmds h' ++ [cmd])) ∧
    Stdout cmd = os_Stdout ∧ Stderr cmd = os_Stderr ∧ Stdin cmd = os_Stdin.
Proof.
  apply (With_nil_stream_resets 0
           (set_Context 0 (valueCtx Background identStdout bufA) heap0) "ls" []).
  - reflexivity.
  - simpl. lia.
  - reflexivity.
Defined.

(** X3.  A call of [WithEnv] with no argument, or with a nil slice, leaves
    the environment of the command nil, also when an earlier call had set
    a list: the child inherits the environment of the process. *)
Theorem WithEnv_nil_inherits (l : Ctx) (h : heap) (path : string)
  (args : list string) :
  wf_heap h = true → l < length (rcCtxs h) → resolvable h (rcCtx l) = true →
  ∃ h' cmd,
    WithEnv l None h = Some (l, h') ∧
    Value h' (rcCtx l) identEnv = Some (StringSlice None) ∧
    Create (rcCtx l) path args h' =
      Some (inl (length (Cmds h')), mkHeap (rcCtxs h') (Cmds h' ++ [cmd])) ∧
    Env cmd = None.
Proof.
  intros Hwf Hl Hr.
  destruct (chain_Create [CallEnv None] l h path args Hwf Hl Hr)
    as (h' & vout & verr & vin & vdir & venv & Hc & _ & _ & _ & _ & Hv & HC).
  unfold latest in Hv. simpl in Hv. injection Hv as <-.
  simpl in Hc. destruct (WithEnv l None h) as [[l' h'']|] eqn:HW; [|done].
  simpl in Hc. injection Hc as -> ->.
  exists h', (resolved (rcCtx l) path args vout verr vin vdir (StringSlice None)).
  split; [done|]. split; [|done].
  destruct (lookup_lt_is_Some_2 _ _ Hl) as [c Hcell].
  unfold WithEnv in HW. rewrite Hcell in HW. simpl in HW.
  injection HW as <-. rewrite Value_set_Context by done. by case_decide.
Qed.

Lemma WithEnv_nil_inherits_witness :
  ∃ h' cmd,
    WithEnv 0 None
      (set_Context 0 (valueCtx Background identEnv (StringSlice (Some ["A=1"])))
                   heap0) = Some (0, h') ∧
    Value h' (rcCtx 0) identEnv = Some (StringSlice None) ∧
    Create (rcCtx 0) "env" [] h' =
      Some (inl (length (Cmds h')), mkHeap (rcCtxs h') (Cmds h' ++ [cmd])) ∧
    Env cmd = None.
Proof.
  apply (WithEnv_nil_inherits 0
    (set_Context 0 (valueCtx Background identEnv (StringSlice (Some ["A=1"])))
                 heap0) "env" []).
  - reflexivity.
  - simpl. lia.
  - reflexivity.
Defined.

(** X4.  [Context] over a [Ctx] shares it: a call of a [With*] method on
    the inner [Ctx], made after the outer one was created, is seen by the
    lookups through the outer one, which answer every key as the inner
    one does. *)
Theorem Context_over_Ctx_aliases (o : option_call) (l : Ctx) (h : heap) :
  wf_heap h = true → l < length (rcCtxs h) →
  ∃ h',
    call o l (Context (rcCtx l) h).2 = Some (l, h') ∧
    (Context (rcCtx l) h).1 ≠ l ∧
    Value h' (rcCtx (Context (rcCtx l) h).1) (call_key o) = Some (call_value o) ∧
    (∀ k, Value h' (rcCtx (Context (rcCtx l) h).1) k = Value h' (rcCtx l) k).
Proof.
  intros Hwf Hl. destruct (lookup_lt_is_Some_2 _ _ Hl) as [c Hc].
  assert (in_heap h (rcCtx l) = true) as Hin by (by apply bool_decide_eq_true).
  pose proof (wf_heap_Context h (rcCtx l) Hwf Hin) as Hwf2.
  set (h2 := (Context (rcCtx l) h).2) in *.
  set (l2 := (Context (rcCtx l) h).1).
  assert (rcCtxs h2 !! l = Some c) as Hc2 by (by apply lookup_app_l_Some).
  assert (l2 ≠ l) as Hne by (unfold l2; simpl; lia).
  exists (set_Context l (valueCtx c (call_key o) (call_value o)) h2).
  split; [by apply call_eq|]. split; [done|].
  pose proof (wf_heap_set_Context h2 l c (call_key o) (call_value o) Hwf2 Hc2)
    as Hwf3.
  assert (∀ k, Value (set_Context l (valueCtx c (call_key o) (call_value o)) h2)
                 (rcCtx l2) k =
               Value (set_Context l (valueCtx c (call_key o) (call_value o)) h2)
                 (rcCtx l) k) as Hsame.
  { intros k. apply Value_rcCtx; [done|]. simpl.
    rewrite list_lookup_insert_ne by done.
    unfold l2. simpl. by rewrite lookup_app_r, Nat.sub_diag. }
  split; [|done]. rewrite Hsame, Value_set_Context by done. by case_decide.
Qed.

Lemma Context_over_Ctx_aliases_witness :
  ∃ h',
    call (CallDir "/srv") 0 (Context (rcCtx 0) heap0).2 = Some (0, h') ∧
    (Context (rcCtx 0) heap0).1 ≠ 0 ∧
    Value h' (rcCtx (Context (rcCtx 0) heap0).1) identDir
      = Some (String_ "/srv") ∧
    (∀ k, Value h' (rcCtx (Context (rcCtx 0) heap0).1) k = Value h' (rcCtx 0) k).
Proof.
  apply (Context_over_Ctx_aliases (CallDir "/srv") 0 heap0).
  - reflexivity.
  - simpl. lia.
Defined.

(** X5.  The other way round there is no sharing: a call of a [With*]
    method on the outer [Ctx] is seen through the outer one and leaves
    every lookup through the inner one as it was. *)
Theorem Context_over_Ctx_isolates (o : option_call) (l : Ctx) (h : heap) :
  wf_heap h = true → l < length (rcCtxs h) →
  ∃ h',
    call o (Context (rcCtx l) h).1 (Context (rcCtx l) h).2 =
      Some ((Context (rcCtx l) h).1, h') ∧
    Value h' (rcCtx (Context (rcCtx l) h).1) (call_key o) = Some (call_value o) ∧
    (∀ k, Value h' (rcCtx l) k = Value h (rcCtx l) k).
Proof.
  intros Hwf Hl.
  assert (in_heap h (rcCtx l) = true) as Hin by (by apply bool_decide_eq_true).
  pose proof (wf_heap_Context h (rcCtx l) Hwf Hin) as Hwf2.
  set (h2 := (Context (rcCtx l) h).2) in *.
  set (l2 := (Context (rcCtx l) h).1).
  assert (rcCtxs h2 !! l2 = Some (rcCtx l)) as Hc2.
  { unfold h2, l2. simpl. by rewrite lookup_app_r, Nat.sub_diag. }
  exists (set_Context l2 (valueCtx (rcCtx l) (call_key o) (call_value o)) h2).
  split; [by apply call_eq|]. split.
  - rewrite Value_set_Context by done. by case_decide.
  - intros k. rewrite Value_set_Context_other.
    + by apply Value_Context_other.
    + done.
    + by eapply lookup_lt_Some.
    + simpl. apply bool_decide_eq_true. unfold l2. simpl. lia.
Qed.

Lemma Context_over_Ctx_isolates_witness :
  ∃ h',
    call (CallDir "/srv") (Context (rcCtx 0) heap0).1 (Context (rcCtx 0) heap0).2
      = Some ((Context (rcCtx 0) heap0).1, h') ∧
    Value h' (rcCtx (Context (rcCtx 0) heap0).1) identDir
      = Some (String_ "/srv") ∧
    (∀ k, Value h' (rcCtx 0) k = Value heap0 (rcCtx 0) k).
Proof.
  apply (Context_over_Ctx_isolates (CallDir "/srv") 0 heap0).
  - reflexivity.
  - simpl. lia.
Defined.

(** X6.  [Context] adds nothing to the context it wraps: the new [Ctx] is
    a new struct, it answers every key as the wrapped context does, the
    lookups in the contexts that existed are not changed, and [Create] can
    resolve the new [Ctx] exactly when it can resolve the wrapped
    context. *)
Theorem Context_transparent (base : context) (h : heap) :
  wf_heap h = true → in_heap h base = true →
  rcCtxs h !! (Context base h).1 = None ∧
  rcCtxs (Context base h).2 !! (Context base h).1 = Some base ∧
  wf_heap (Context base h).2 = true ∧
  (∀ k, Value (Context base h).2 (rcCtx (Context base h).1) k = Value h base k) ∧
  (∀ c k, in_heap h c = true → Value (Context base h).2 c k = Value h c k) ∧
  resolvable (Context base h).2 (rcCtx (Context base h).1) = resolvable h base.
Proof.
  intros Hwf Hin.
  split; [by apply lookup_ge_None|].
  split; [by simpl; rewrite lookup_app_r, Nat.sub_diag|].
  split; [by apply wf_heap_Context|].
  split; [by intros k; apply Value_Context|].
  split; [by intros c k Hc; apply Value_Context_other|].
  unfold resolvable, typed_at, lookup_order.
  cbn [forallb]. by rewrite !Value_Context.
Qed.

Lemma Context_transparent_witness :
  rcCtxs heap0 !! (Context plain_ctx heap0).1 = None ∧
  rcCtxs (Context plain_ctx heap0).2 !! (Context plain_ctx heap0).1
    = Some plain_ctx ∧
  wf_heap (Context plain_ctx heap0).2 = true ∧
  (∀ k, Value (Context plain_ctx heap0).2 (rcCtx (Context plain_ctx heap0).1) k
        = Value heap0 plain_ctx k) ∧
  (∀ c k, in_heap heap0 c = true →
          Value (Context plain_ctx heap0).2 c k = Value heap0 c k) ∧
  resolvable (Context plain_ctx heap0).2 (rcCtx (Context plain_ctx heap0).1)
    = resolvable heap0 plain_ctx.
Proof.
  apply (Context_transparent plain_ctx heap0).
  - reflexivity.
  - reflexivity.
Defined.

(** X7.  On the heaps the program builds [Create] always returns: a
    command when each of its five lookups finds nil or a value of the
    type it converts to, an error in every other case. *)
Theorem Create_returns (ctx : context) (path : string) (args : list string)
  (h : heap) :
  wf_heap h = true → in_heap h ctx = true →
  if resolvable h ctx
  then ∃ cmd, Create ctx path args h =
         Some (inl (length (Cmds h)), mkHeap (rcCtxs h) (Cmds h ++ [cmd]))
  else ∃ e, Create ctx path args h = Some (inr e, h).
Proof.
  intros Hwf Hin. destruct (resolvable h ctx) eqn:Hr.
  - destruct (Create_resolvable ctx path args h Hr)
      as (vout & verr & vin & vdir & venv & _ & _ & _ & _ & _ & _ & _ & _ & _
          & _ & HC).
    by eexists.
  - destruct (first_mistyped h ctx lookup_order)
      as (pre & k1 & post & v1 & Hsplit & Hpre & Hv1 & Ht1); [|done|].
    { intros k _. by apply Value_total. }
    exists (assign_error k1 v1). by eapply Create_err.
Qed.

Lemma Create_returns_witness :
  if resolvable (mkHeap [] []) bad_stdout
  then ∃ cmd, Create bad_stdout "ls" [] (mkHeap [] []) =
         Some (inl (length (Cmds (mkHeap [] []))),
               mkHeap (rcCtxs (mkHeap [] [])) (Cmds (mkHeap [] []) ++ [cmd]))
  else ∃ e, Create bad_stdout "ls" [] (mkHeap [] []) = Some (inr e, mkHeap [] []).
Proof.
  apply (Create_returns bad_stdout "ls" [] (mkHeap [] [])).
  - reflexivity.
  - reflexivity.
Defined.

Lemma getWriter_ext h c1 c2 dst k name :
  Value h c1 k = Value h c2 k →
  getWriter h c1 dst k name = getWriter h c2 dst k name.
Proof. unfold getWriter. by intros ->. Qed.

Lemma getReader_ext h c1 c2 dst k name :
  Value h c1 k = Value h c2 k →
  getReader h c1 dst k name = getReader h c2 dst k name.
Proof. unfold getReader. by intros ->. Qed.

Lemma getString_ext h c1 c2 dst k name :
  Value h c1 k = Value h c2 k →
  getString h c1 dst k name = getString h c2 dst k name.
Proof. unfold getString. by intros ->. Qed.

Lemma getStringSlice_ext h c1 c2 dst k name :
  Value h c1 k = Value h c2 k →
  getStringSlice h c1 dst k name = getStringSlice h c2 dst k name.
Proof. unfold getStringSlice. by intros ->. Qed.

Lemma configure_ctx c1 c2 path args stdin stdout stderr dir environ :
  Stdout (configure c1 path args stdin stdout stderr dir environ) =
  Stdout (configure c2 path args stdin stdout stderr dir environ) ∧
  Stderr (configure c1 path args stdin stdout stderr dir environ) =
  Stderr (configure c2 path args stdin stdout stderr dir environ) ∧
  Stdin (configure c1 path args stdin stdout stderr dir environ) =
  Stdin (configure c2 path args stdin stdout stderr dir environ) ∧
  Dir (configure c1 path args stdin stdout stderr dir environ) =
  Dir (configure c2 path args stdin stdout stderr dir environ) ∧
  Env (configure c1 path args stdin stdout stderr dir environ) =
  Env (configure c2 path args stdin stdout stderr dir environ) ∧
  Args (configure c1 path args stdin stdout stderr dir environ) =
  Args (configure c2 path args stdin stdout stderr dir environ).
Proof.
  unfold configure.
  destruct (is_nil stdout), (is_nil stderr), (is_nil stdin),
    (decide (dir = "")), environ; done.
Qed.

(** X8.  [Create] reads nothing of a context but the five lookups: on two
    contexts whose lookups of the five keys agree, whatever else they
    carry (values of other packages, the extra files), it returns the same
    error, or two commands with the same streams, directory, environment
    and arguments. *)
Theorem Create_reads_five_keys (c1 c2 : context) (path : string)
  (args : list string) (h : heap) :
  same_options h c1 c2 = true →
  match Create c1 path args h, Create c2 path args h with
  | Some (inl p1, h1), Some (inl p2, h2) =>
      p1 = p2 ∧
      ∃ cmd1 cmd2,
        Cmds h1 !! p1 = Some cmd1 ∧ Cmds h2 !! p2 = Some cmd2 ∧
        Stdout cmd1 = Stdout cmd2 ∧ Stderr cmd1 = Stderr cmd2 ∧
        Stdin cmd1 = Stdin cmd2 ∧ Dir cmd1 = Dir cmd2 ∧ Env cmd1 = Env cmd2 ∧
        Args cmd1 = Args cmd2
  | Some (inr e1, h1), Some (inr e2, h2) => e1 = e2 ∧ h1 = h2
  | None, None => True
  | _, _ => False
  end.
Proof.
  unfold same_options, lookup_order. cbn [forallb]. rewrite !andb_true_iff.
  rewrite !bool_decide_eq_true. intros (E1 & E2 & E3 & E4 & E5 & _).
  unfold Create.
  rewrite (getWriter_ext h c1 c2 _ _ _ E1), (getWriter_ext h c1 c2 _ _ _ E2),
    (getReader_ext h c1 c2 _ _ _ E3), (getString_ext h c1 c2 _ _ _ E4),
    (getStringSlice_ext h c1 c2 _ _ _ E5).
  destruct (getWriter h c2 os_Stdout identStdout "Stdout") as [[vo [?|]]|];
    simpl; [done| |done].
  destruct (getWriter h c2 os_Stderr identStderr "Stderr") as [[ve [?|]]|];
    simpl; [done| |done].
  destruct (getReader h c2 os_Stdin identStdin "Stdin") as [[vi [?|]]|];
    simpl; [done| |done].
  destruct (getString h c2 "" identDir "Dir") as [[vd [?|]]|];
    simpl; [done| |done].
  destruct (getStringSlice h c2 None identEnv "Env") as [[vn [?|]]|];
    simpl; [done| |done].
  split; [done|]. do 2 eexists.
  rewrite !lookup_app_r, !Nat.sub_diag by done. simpl.
  split; [done|]. split; [done|]. apply configure_ctx.
Qed.

Lemma Create_reads_five_keys_witness :
  match Create Background "ls" [] (mkHeap [] []),
        Create (valueCtx plain_ctx identExtraFiles (String_ "x")) "ls" []
               (mkHeap [] []) with
  | Some (inl p1, h1), Some (inl p2, h2) =>
      p1 = p2 ∧
      ∃ cmd1 cmd2,
        Cmds h1 !! p1 = Some cmd1 ∧ Cmds h2 !! p2 = Some cmd2 ∧
        Stdout cmd1 = Stdout cmd2 ∧ Stderr cmd1 = Stderr cmd2 ∧
        Stdin cmd1 = Stdin cmd2 ∧ Dir cmd1 = Dir cmd2 ∧ Env cmd1 = Env cmd2 ∧
        Args cmd1 = Args cmd2
  | Some (inr e1, h1), Some (inr e2, h2) => e1 = e2 ∧ h1 = h2
  | None, None => True
  | _, _ => False
  end.
Proof.
  apply (Create_reads_five_keys Background
           (valueCtx plain_ctx identExtraFiles (String_ "x")) "ls" []
           (mkHeap [] [])).
  reflexivity.
Defined.

(** X9.  The heaps the program builds keep the invariant that every
    struct embeds a context that only points to older structs: [Context],
    the six methods and [Create] preserve it and keep every context of the
    heap in the heap, and under it every lookup ends. *)
Theorem wf_heap_invariant (h : heap) :
  wf_heap h = true →
  (∀ c k, in_heap h c = true → is_Some (Value h c k)) ∧
  (∀ ctx, in_heap h ctx = true →
     wf_heap (Context ctx h).2 = true ∧
     in_heap (Context ctx h).2 (rcCtx (Context ctx h).1) = true ∧
     ∀ c, in_heap h c = true → in_heap (Context ctx h).2 c = true) ∧
  (∀ o l l' h', call o l h = Some (l', h') →
     wf_heap h' = true ∧ ∀ c, in_heap h' c = in_heap h c) ∧
  (∀ ctx path args r h', Create ctx path args h = Some (r, h') →
     wf_heap h' = true ∧ ∀ c, in_heap h' c = in_heap h c).
Proof.
  intros Hwf. split; [by intros c k Hc; apply Value_total|]. split; [|split].
  - intros ctx Hctx. split; [by apply wf_heap_Context|]. split.
    + unfold in_heap. simpl. apply bool_decide_eq_true.
      rewrite length_app. simpl. lia.
    + intros c Hc. unfold in_heap in *. simpl.
      eapply refs_below_mono; [|done]. rewrite length_app. lia.
  - intros o l l' h' Hcall.
    split; [by eapply wf_heap_call|]. intros c.
    destruct (rcCtxs h !! l) as [c0|] eqn:Hl.
    + rewrite (call_eq _ _ _ _ Hl) in Hcall. injection Hcall as _ <-.
      unfold in_heap. simpl. by rewrite length_insert.
    + by rewrite call_None in Hcall.
  - intros ctx path args r h' HC. apply Create_rcCtxs in HC.
    unfold wf_heap, in_heap. by rewrite HC.
Qed.

Lemma wf_heap_invariant_witness :
  (∀ c k, in_heap heap0 c = true → is_Some (Value heap0 c k)) ∧
  (∀ ctx, in_heap heap0 ctx = true →
     wf_heap (Context ctx heap0).2 = true ∧
     in_heap (Context ctx heap0).2 (rcCtx (Context ctx heap0).1) = true ∧
     ∀ c, in_heap heap0 c = true → in_heap (Context ctx heap0).2 c = true) ∧
  (∀ o l l' h', call o l heap0 = Some (l', h') →
     wf_heap h' = true ∧ ∀ c, in_heap h' c = in_heap heap0 c) ∧
  (∀ ctx path args r h', Create ctx path args heap0 = Some (r, h') →
     wf_heap h' = true ∧ ∀ c, in_heap h' c = in_heap heap0 c).
Proof. apply (wf_heap_invariant heap0). reflexivity. Defined.

(** X10.  [Run] on a context with a value of another type under one of
    the five keys runs nothing: whatever the method [Run] of a command
    would do, it returns the error of [Create] behind one more prefix and
    leaves the heap as it is; unwrapping the error twice gives the error
    of the lookup. *)
Theorem Run_type_mismatch (Cmd_Run : ptr → heap → option error * heap)
  (ctx : context) (path : string) (args : list string) (h : heap)
  (pre : list key) (k : key) (post : list key) (v : value) :
  lookup_order = (pre ++ k :: post)%list →
  forallb (typed_at h ctx) pre = true →
  Value h ctx k = Some v → well_typed k v = false →
  ∃ e,
    Run Cmd_Run ctx path args h = Some (Some e, h) ∧
    Error e = "failed to create *exec.Cmd: failed to assign " +:+
              option_name k +:+ ": expected " +:+ expected k +:+ " for " +:+
              option_name k +:+ ", got " +:+ typeName v ∧
    Unwrap e ≫= Unwrap =
      Some (errorString ("expected " +:+ expected k +:+ " for " +:+
                         option_name k +:+ ", got " +:+ typeName v)).
Proof.
  intros Hsplit Hpre Hv Ht. unfold Run.
  rewrite (Create_err ctx path args h pre k post v Hsplit Hpre Hv Ht). simpl.
  eexists. split; [done|].
  assert (k ∈ lookup_order) as Hk.
  { rewrite Hsplit. apply elem_of_app. right. by left. }
  unfold lookup_order in Hk.
  repeat (apply elem_of_cons in Hk as [->|Hk]; [by split|]).
  by apply elem_of_nil in Hk.
Qed.

Lemma Run_type_mismatch_witness :
  ∃ e,
    Run exit_1 (valueCtx Background identDir (Object go_int 7)) "ls" []
        (mkHeap [] []) = Some (Some e, mkHeap [] []) ∧
    Error e = "failed to create *exec.Cmd: failed to assign " +:+
              option_name identDir +:+ ": expected " +:+ expected identDir +:+
              " for " +:+ option_name identDir +:+ ", got " +:+
              typeName (Object go_int 7) ∧
    Unwrap e ≫= Unwrap =
      Some (errorString ("expected " +:+ expected identDir +:+ " for " +:+
                         option_name identDir +:+ ", got " +:+
                         typeName (Object go_int 7))).
Proof.
  apply (Run_type_mismatch exit_1
           (valueCtx Background identDir (Object go_int 7)) "ls" []
           (mkHeap [] []) [identStdout; identStderr; identStdin] identDir
           [identEnv] (Object go_int 7)).
  - reflexivity.
  - reflexivity.
  - reflexivity.
  - reflexivity.
Defined.

(** X11.  A context can be used for one [Run] after another and gives the
    same options each time: when running a command leaves the [rcCtx]
    structs alone, the second [Run] runs a new command made from the same
    five values as the first, whatever the first returned. *)
Theorem Run_reuses_options (Cmd_Run : ptr → heap → option error * heap)
  (ctx : context) (path1 : string) (args1 : list string) (path2 : string)
  (args2 : list string) (h : heap) :
  (∀ p h0, rcCtxs (Cmd_Run p h0).2 = rcCtxs h0) →
  resolvable h ctx = true →
  ∃ vout verr vin vdir venv e1 h1,
    Cmd_Run (length (Cmds h))
      (mkHeap (rcCtxs h)
         (Cmds h ++ [resolved ctx path1 args1 vout verr vin vdir venv]))
      = (e1, h1) ∧
    Run Cmd_Run ctx path1 args1 h = Some (e1, h1) ∧
    Run Cmd_Run ctx path2 args2 h1 =
      Some (Cmd_Run (length (Cmds h1))
              (mkHeap (rcCtxs h1)
                 (Cmds h1 ++
                  [resolved ctx path2 args2 vout verr vin vdir venv]))).
Proof.
  intros Hkeep Hr.
  destruct (Create_resolvable ctx path1 args1 h Hr)
    as (vout & verr & vin & vdir & venv & H1 & T1 & H2 & T2 & H3 & T3 & H4
        & T4 & H5 & T5 & HC).
  set (h0 := mkHeap (rcCtxs h)
               (Cmds h ++ [resolved ctx path1 args1 vout verr vin vdir venv]))
    in *.
  destruct (Cmd_Run (length (Cmds h)) h0) as [e1 h1] eqn:HR.
  exists vout, verr, vin, vdir, venv, e1, h1. split; [done|].
  unfold Run. rewrite HC. simpl. split; [by rewrite HR|].
  assert (rcCtxs h1 = rcCtxs h) as Heq.
  { pose proof (Hkeep (length (Cmds h)) h0) as Hk. by rewrite HR in Hk. }
  rewrite (Create_ok ctx path2 args2 h1 vout verr vin vdir venv);
    try done; by rewrite (Value_rcCtxs _ _ _ _ Heq).
Qed.

Lemma Run_reuses_options_witness :
  ∃ vout verr vin vdir venv e1 h1,
    exit_1 (length (Cmds heap0))
      (mkHeap (rcCtxs heap0)
         (Cmds heap0 ++
          [resolved (rcCtx 0) "docker" ["ps"] vout verr vin vdir venv]))
      = (e1, h1) ∧
    Run exit_1 (rcCtx 0) "docker" ["ps"] heap0 = Some (e1, h1) ∧
    Run exit_1 (rcCtx 0) "kubectl" ["apply"] h1 =
      Some (exit_1 (length (Cmds h1))
              (mkHeap (rcCtxs h1)
                 (Cmds h1 ++
                  [resolved (rcCtx 0) "kubectl" ["apply"] vout verr vin vdir
                            venv]))).
Proof.
  apply (Run_reuses_options exit_1 (rcCtx 0) "docker" ["ps"] "kubectl"
           ["apply"] heap0).
  - intros p h0. reflexivity.
  - reflexivity.
Defined.

(** X12.  A command that [Create] returns is a new one: its pointer
    pointed to nothing before, the commands that existed are not changed,
    its argument vector is the path followed by the arguments as given,
    and it is bound to the context that was passed. *)
Theorem Create_allocates (ctx : context) (path : string) (args : list string)
  (h h' : heap) (p : ptr) :
  Create ctx path args h = Some (inl p, h') →
  Cmds h !! p = None ∧
  (∀ q cmd0, Cmds h !! q = Some cmd0 → Cmds h' !! q = Some cmd0) ∧
  length (Cmds h') = S (length (Cmds h)) ∧
  ∃ cmd, Cmds h' !! p = Some cmd ∧
         Args cmd = path :: args ∧ cmd_ctx cmd = ctx.
Proof.
  intros HC. pose proof (Create_inl_resolvable _ _ _ _ _ _ HC) as Hr.
  destruct (Create_resolvable ctx path args h Hr)
    as (vout & verr & vin & vdir & venv & _ & _ & _ & _ & _ & _ & _ & _ & _
        & _ & HC').
  rewrite HC' in HC. injection HC as <- <-. simpl.
  split; [by apply lookup_ge_None|].
  split; [by intros q cmd0 Hq; apply lookup_app_l_Some|].
  split; [rewrite length_app; simpl; lia|].
  eexists. by rewrite lookup_app_r, Nat.sub_diag.
Qed.

Lemma Create_allocates_witness :
  Cmds heap0 !! 0 = None ∧
  (∀ q cmd0, Cmds heap0 !! q = Some cmd0 →
     Cmds (mkHeap (rcCtxs heap0)
             ([] ++ [resolved (rcCtx 0) "ls" ["-l"] Nil Nil Nil Nil Nil])) !! q
     = Some cmd0) ∧
  length (Cmds (mkHeap (rcCtxs heap0)
             ([] ++ [resolved (rcCtx 0) "ls" ["-l"] Nil Nil Nil Nil Nil])))
    = S (length (Cmds heap0)) ∧
  ∃ cmd, Cmds (mkHeap (rcCtxs heap0)
             ([] ++ [resolved (rcCtx 0) "ls" ["-l"] Nil Nil Nil Nil Nil])) !! 0
         = Some cmd ∧
         Args cmd = "ls" :: ["-l"] ∧ cmd_ctx cmd = rcCtx 0.
Proof.
  apply (Create_allocates (rcCtx 0) "ls" ["-l"] heap0 _ 0). reflexivity.
Defined.

(** X13.  No stream of a command that [Create] returns is the nil
    interface: each is the value found in the context or the standard
    stream of the process, so the child never gets the null device in
    place of a stream that was not set. *)
Theorem Create_streams_not_nil (ctx : context) (path : string)
  (args : list string) (h h' : heap) (p : ptr) (cmd : Cmd) :
  Create ctx path args h = Some (inl p, h') → Cmds h' !! p = Some cmd →
  is_nil (Stdout cmd) = false ∧ is_nil (Stderr cmd) = false ∧
  is_nil (Stdin cmd) = false ∧
  is_Writer (Stdout cmd) = true ∧ is_Writer (Stderr cmd) = true ∧
  is_Reader (Stdin cmd) = true.
Proof.
  intros HC Hp. pose proof (Create_inl_resolvable _ _ _ _ _ _ HC) as Hr.
  destruct (Create_resolvable ctx path args h Hr)
    as (vout & verr & vin & vdir & venv & _ & T1 & _ & T2 & _ & T3 & _ & _ & _
        & _ & HC').
  rewrite HC' in HC. injection HC as <- <-. simpl in Hp.
  rewrite lookup_app_r, Nat.sub_diag in Hp by done. injection Hp as <-.
  simpl in *. unfold stream_or.
  destruct (is_nil vout) eqn:E1, (is_nil verr) eqn:E2, (is_nil vin) eqn:E3;
    simpl in *; by rewrite ?E1, ?E2, ?E3, ?T1, ?T2, ?T3.
Qed.

Lemma Create_streams_not_nil_witness :
  is_nil (Stdout (resolved (rcCtx 0) "ls" [] Nil Nil Nil Nil Nil)) = false ∧
  is_nil (Stderr (resolved (rcCtx 0) "ls" [] Nil Nil Nil Nil Nil)) = false ∧
  is_nil (Stdin (resolved (rcCtx 0) "ls" [] Nil Nil Nil Nil Nil)) = false ∧
  is_Writer (Stdout (resolved (rcCtx 0) "ls" [] Nil Nil Nil Nil Nil)) = true ∧
  is_Writer (Stderr (resolved (rcCtx 0) "ls" [] Nil Nil Nil Nil Nil)) = true ∧
  is_Reader (Stdin (resolved (rcCtx 0) "ls" [] Nil Nil Nil Nil Nil)) = true.
Proof.
  apply (Create_streams_not_nil (rcCtx 0) "ls" [] heap0
           (mkHeap (rcCtxs heap0) [resolved (rcCtx 0) "ls" [] Nil Nil Nil Nil Nil])
           0 (resolved (rcCtx 0) "ls" [] Nil Nil Nil Nil Nil)).
  - reflexivity.
  - reflexivity.
Defined.
